(** * resize_photos.py: the size-targeting JPEG re-encoder

    A shallow embedding of [src/resize_photos.py] and the properties of
    its specification.

    Numbers.  [get_file_size_kb] returns [os.path.getsize(p) / 1024], a
    binary64 float.  Division of a byte count below 2^53 by 1024 is exact,
    and Python compares a float with an [int] exactly, so every comparison
    of a size in KB with an integer target is a comparison of rationals:
    sizes in KB are modelled in [Q].  Of the three other float
    computations of the source,
      - [int(width * scale_factor)] (pre-scaling, lines 79-81) is computed
        on IEEE binary64 numbers, operation by operation as the source
        does: an integer is converted to the nearest float (ties to even,
        [OverflowError] beyond the largest float), the quotient and the
        products are the binary64 ones, and [x ** 0.5] of a float that is
        not negative is its correctly rounded square root;
      - [int(width * 0.9)] is the truncation of [width * 9/10], which the
        binary64 computation gives for every dimension up to 65535
        ([float_shrink_exact]);
      - [target_max_kb * 1.2] is [max * 12/10].

    Paths.  The file system maps the path of a regular file to its
    content.  A file has one path: the spelling [pathlib] gives it, with
    no empty component and no component [.] or [..], relative to the
    working directory or absolute.  Image paths are given in this
    spelling, as [rglob] yields them for the files under a source
    directory spelled this way; the backup directory is any string of the
    command line, and the path of a backup copy is brought to this
    spelling.  Names are case sensitive and there are no links.
    Directories are not part of the state: a directory is there when a
    file lies under it or when [mkdir] is asked for it, and [mkdir] fails
    when a path it has to make is a regular file. *)

From Stdlib Require Import ZArith QArith Qround Bool List Lia.
From Stdlib Require Import Floats Ascii.
From stdpp Require Import gmap strings list fin_maps.

Open Scope Z_scope.

(** ** Sizes *)

Definition file_bytes (content : list Byte.byte) : Z :=
  Z.of_nat (length content).

(** [os.path.getsize(filepath) / 1024] of a file with this content. *)
Definition size_kb (content : list Byte.byte) : Q :=
  file_bytes content # 1024.

Definition Qlt_bool (x y : Q) : bool := negb (Qle_bool y x).

(** Python's [int(x)] on a non-complex number: truncation towards zero. *)
Definition int_of_Q (x : Q) : Z := Z.quot (Qnum x) (Zpos (Qden x)).

(** [lo <= x <= hi] with integer bounds. *)
Definition in_target_range (lo hi : Z) (x : Q) : bool :=
  Qle_bool (inject_Z lo) x && Qle_bool x (inject_Z hi).

(** ** The imaging library

    Pillow is outside the repository: the program only relies on the
    operations below.  [None] stands for a raised exception. *)

Class Codec := {
  image : Type;
  (** [Image.open], [ImageOps.exif_transpose] and [convert('RGB')] on the
      content of a file. *)
  image_open : list Byte.byte -> option image;
  (** [img.size]. *)
  image_size : image -> Z * Z;
  (** [img.resize((w, h), LANCZOS)]. *)
  image_resize : image -> Z -> Z -> option image;
  (** The bytes [img.save(path, 'JPEG', quality=q, optimize=True)] writes. *)
  image_save : image -> Z -> option (list Byte.byte);
  (** A decoded image has at least one pixel. *)
  image_size_pos : forall im, 0 < fst (image_size im) /\ 0 < snd (image_size im)
}.

(** ** The file system: regular files by path *)

Abbreviation filesystem := (gmap string (list Byte.byte)).

(** [os.replace(src, dst)]; [None] when [src] does not exist. *)
Definition os_replace (src dst : string) (fs : filesystem) : option filesystem :=
  match fs !! src with
  | Some c => Some (<[dst := c]> (delete src fs))
  | None => None
  end.

(** [if os.path.exists(p): os.remove(p)]. *)
Definition remove_if_exists (p : string) (fs : filesystem) : filesystem :=
  delete p fs.

Fixpoint strip_prefix (pre s : string) : option string :=
  match pre with
  | EmptyString => Some s
  | String a pre' =>
      match s with
      | String b s' => if Ascii.eqb a b then strip_prefix pre' s' else None
      | EmptyString => None
      end
  end.

Fixpoint last_char (s : string) : option Ascii.ascii :=
  match s with
  | EmptyString => None
  | String a EmptyString => Some a
  | String _ s' => last_char s'
  end.

(** [Path(image_path).relative_to(Path('source'))] on a normalised path;
    [None] is the [ValueError] of a path outside [source]. *)
Definition relative_to_source (image_path : string) : option string :=
  strip_prefix "source/" image_path.

(** *** The path of a backup, lines 20-26 *)

(** [s.split('/')]. *)
Fixpoint split_path (s : string) : list string :=
  match s with
  | EmptyString => [EmptyString]
  | String c s' =>
      if Ascii.eqb c "/" then EmptyString :: split_path s'
      else match split_path s' with
           | comp :: rest => String c comp :: rest
           | [] => [String c EmptyString]
           end
  end.

(** ['/'.join(parts)]. *)
Fixpoint join_path (parts : list string) : string :=
  match parts with
  | [] => EmptyString
  | [c] => c
  | c :: rest => (c +:+ "/" +:+ join_path rest)%string
  end.

(** The root of a POSIX path as [pathlib] parses it: exactly two leading
    slashes are kept, any other number of them is one. *)
Definition path_root (s : string) : string :=
  match s with
  | String "/" (String "/" (String "/" _)) => "/"
  | String "/" (String "/" _) => "//"
  | String "/" _ => "/"
  | _ => EmptyString
  end.

(** The parts of [Path(s)] after the root: [pathlib] drops empty
    components and the component [.]. *)
Definition path_parts (s : string) : list string :=
  List.filter
    (fun c => negb (String.eqb c EmptyString) && negb (String.eqb c "."))
    (split_path s).

(** The component [..] cancels the directory before it, as the operating
    system does on directories that exist; [seen] is reversed. *)
Fixpoint resolve_parent (rooted : bool) (seen parts : list string) : list string :=
  match parts with
  | [] => rev seen
  | c :: rest =>
      if String.eqb c ".." then
        match seen with
        | top :: seen' =>
            if String.eqb top ".." then resolve_parent rooted (c :: seen) rest
            else resolve_parent rooted seen' rest
        | [] =>
            if rooted then resolve_parent rooted [] rest
            else resolve_parent rooted [c] rest
        end
      else resolve_parent rooted (c :: seen) rest
  end.

(** The spelling of the directory [root] / [parts] that identifies it; the
    empty string is the working directory. *)
Definition directory_key (root : string) (parts : list string) : string :=
  (root +:+ join_path
     (resolve_parent (negb (String.eqb root EmptyString)) [] parts))%string.

(** What is put in front of a relative path to place it in a directory. *)
Definition directory_prefix (key : string) : string :=
  match last_char key with
  | None => EmptyString
  | Some c => if Ascii.eqb c "/" then key else (key +:+ "/")%string
  end.

(** The file [Path(backup_dir) / rel_path] denotes. *)
Definition backup_file_path (backup_dir rel_path : string) : string :=
  (directory_prefix (directory_key (path_root backup_dir) (path_parts backup_dir))
     +:+ rel_path)%string.

(** The proper ancestors of a path: what precedes each of its slashes. *)
Fixpoint ancestors (before s : string) : list string :=
  match s with
  | EmptyString => []
  | String c s' =>
      if Ascii.eqb c "/" then before :: ancestors (before +:+ "/") s'
      else ancestors (before +:+ String c EmptyString) s'
  end.

(** The directories [backup_path.mkdir(parents=True, exist_ok=True)] and
    [backup_file.parent.mkdir(parents=True, exist_ok=True)] go through. *)
Definition backup_directories (backup_dir rel_path : string) : list string :=
  let root := path_root backup_dir in
  let parts := path_parts backup_dir in
  map (fun k => directory_key root (firstn k parts)) (seq 1 (length parts))
  ++ ancestors EmptyString (backup_file_path backup_dir rel_path).

(** [mkdir] raises when one of these is a regular file. *)
Definition mkdir_blocked (dirs : list string) (fs : filesystem) : bool :=
  existsb
    (fun d => negb (String.eqb d EmptyString)
              && match fs !! d with Some _ => true | None => false end)
    dirs.

(** [create_backup]: the file of the copy and the file system with it.
    [None] is an exception: of [mkdir], of [relative_to], or of
    [shutil.copy2], which refuses to copy a file onto itself. *)
Definition create_backup (image_path backup_dir : string) (fs : filesystem)
  : option (string * filesystem) :=
  match relative_to_source image_path with
  | None => None
  | Some rel_path =>
      let backup_file := backup_file_path backup_dir rel_path in
      if mkdir_blocked (backup_directories backup_dir rel_path) fs then None
      else
        match fs !! image_path with
        | None => None
        | Some content =>
            if decide (backup_file = image_path) then None
            else Some (backup_file, <[backup_file := content]> fs)
        end
  end.

(** ** The search state and one adjustment *)

Record search_state := SearchState {
  width : Z;
  height : Z;
  quality : Z;
  attempts : Z
}.

Definition max_attempts : Z := 15.

Inductive adjustment :=
| Accept
| Next (st : search_state)
| Stop.

(** [int(d * 0.9)]. *)
Definition shrink (d : Z) : Z := int_of_Q (inject_Z d * (9 # 10)).

(** Lines 102-130: what the loop decides from the size of the encoding. *)
Definition adjust (target_min_kb target_max_kb : Z) (temp_size_kb : Q)
    (st : search_state) : adjustment :=
  if in_target_range target_min_kb target_max_kb temp_size_kb then Accept
  else if Qlt_bool (inject_Z target_max_kb) temp_size_kb then
    if 60 <? quality st then
      Next (SearchState (width st) (height st) (quality st - 5) (attempts st + 1))
    else
      Next (SearchState (shrink (width st)) (shrink (height st))
              (Z.min 85 (quality st + 10)) (attempts st + 1))
  else
    if quality st <? 95 then
      Next (SearchState (width st) (height st) (quality st + 5) (attempts st + 1))
    else Stop.

(** ** IEEE binary64 numbers *)

Module Binary64.

(** The float of a Python [int]: the binary64 number nearest to it, ties
    to even; [None] where the conversion raises [OverflowError]. *)
Definition float_of_Z (z : Z) : option float :=
  match binary_normalize prec emax z 0 false with
  | S754_infinity _ => None
  | x => Some (SF2Prim x)
  end.

(** [int(f)]: truncation towards zero; [None] for infinities and NaN,
    on which [int] raises. *)
Definition int_of_float (f : float) : option Z :=
  match Prim2SF f with
  | S754_zero _ => Some 0
  | S754_finite s m e =>
      let a := if 0 <=? e then Zpos m * 2 ^ e else Zpos m / 2 ^ (- e) in
      Some (if s then - a else a)
  | _ => None
  end.

(** [os.path.getsize(p) / 1024]. *)
Definition float_size_kb (bytes : Z) : option float :=
  match float_of_Z bytes with
  | Some b => Some (b / 1024)%float
  | None => None
  end.

(** [int(d * 0.9)]; the literal is the binary64 number nearest to 0.9. *)
Definition float_shrink (d : Z) : option Z :=
  match float_of_Z d with
  | Some f => int_of_float (f * 0x1.ccccccccccccdp-1)%float
  | None => None
  end.

(** [final_size <= target_max_kb * 1.2], with the binary64 number nearest
    to 1.2. *)
Definition float_close_enough (bytes target_max_kb : Z) : option bool :=
  match float_size_kb bytes, float_of_Z target_max_kb with
  | Some final_size, Some m =>
      Some (final_size <=? m * 0x1.3333333333333p+0)%float
  | _, _ => None
  end.

(** [p] holds of the [n] integers from [z] on. *)
Fixpoint all_from (n : nat) (z : Z) (p : Z -> bool) : bool :=
  match n with
  | O => true
  | S n' => p z && all_from n' (z + 1) p
  end.

Definition shrink_agrees (d : Z) : bool :=
  match float_shrink d with
  | Some z => z =? shrink d
  | None => false
  end.

End Binary64.

(** ** Pre-scaling, lines 77-82 *)

(** The float a size in KB is: the quotient of the file size by 1024.
    Dividing the float of the numerator by a power of two gives the
    correctly rounded quotient, which is what Python's division of two
    integers returns. *)
Definition float_of_Q (x : Q) : option float :=
  match Binary64.float_of_Z (Qnum x), Binary64.float_of_Z (Zpos (Qden x)) with
  | Some n, Some d => Some (n / d)%float
  | _, _ => None
  end.

(** [(target_max_kb * 1024 / (original_size_kb * 1024)) ** 0.5].  The
    product [target_max_kb * 1024] is an integer, converted for the
    division; a zero divisor raises [ZeroDivisionError]; a negative
    quotient makes the power complex, on which [int] raises [TypeError].
    The power [** 0.5] of a non-negative float is its square root. *)
Definition scale_factor (target_max_kb : Z) (original_size_kb : Q) : option float :=
  match float_of_Q original_size_kb,
        Binary64.float_of_Z (target_max_kb * 1024) with
  | Some size, Some numerator =>
      let denominator := (size * 1024)%float in
      if (denominator =? 0)%float then None
      else
        let ratio := (numerator / denominator)%float in
        if (ratio <? 0)%float then None
        else Some (PrimFloat.sqrt ratio)
  | _, _ => None
  end.

(** [int(d * scale_factor)]. *)
Definition scale_dimension (d : Z) (factor : float) : option Z :=
  match Binary64.float_of_Z d with
  | Some f => Binary64.int_of_float (f * factor)%float
  | None => None
  end.

(** ** The search loop, lines 84-130 *)

Inductive loop_exit :=
| Replaced      (** in range: the original was replaced, [return True] *)
| Broke         (** [break]: under target at the quality ceiling *)
| Exhausted     (** [attempts < max_attempts] became false *)
| Raised        (** an exception left the loop *)
| OutOfFuel.    (** the model's recursion bound; never reached, see
                    [search_loop_fuel] *)

Record loop_result := LoopResult {
  lr_exit : loop_exit;
  lr_state : search_state;          (** the state at the exit *)
  lr_fs : filesystem;
  lr_trace : list search_state      (** the state of every iteration run *)
}.

Definition temp_path_of (image_path : string) : string :=
  (image_path +:+ ".temp")%string.

(** The names [rglob('*.jpg')] and [rglob('*.JPG')] return, line 166. *)
Definition jpg_name (p : string) : Prop :=
  exists stem : string, p = (stem +:+ ".jpg")%string \/ p = (stem +:+ ".JPG")%string.

Section Resize.
Context `{codec : Codec}.

(** Lines 89-97: resize unless the dimensions are the original ones,
    then encode. *)
Definition encode_at (img : image) (st : search_state) : option (list Byte.byte) :=
  let '(original_width, original_height) := image_size img in
  let resized_img :=
    if negb (width st =? original_width) || negb (height st =? original_height)
    then image_resize img (width st) (height st)
    else Some img in
  match resized_img with
  | Some r => image_save r (quality st)
  | None => None
  end.

Definition with_trace (st : search_state) (r : loop_result) : loop_result :=
  LoopResult (lr_exit r) (lr_state r) (lr_fs r) (st :: lr_trace r).

Fixpoint search_loop (fuel : nat) (image_path : string)
    (target_min_kb target_max_kb : Z) (img : image)
    (st : search_state) (fs : filesystem) : loop_result :=
  if attempts st <? max_attempts then
    match fuel with
    | O => LoopResult OutOfFuel st fs []
    | S fuel' =>
        let temp_path := temp_path_of image_path in
        match encode_at img st with
        | None => LoopResult Raised st fs [st]
        | Some encoded =>
            let fs1 := <[temp_path := encoded]> fs in
            let temp_size_kb := size_kb encoded in
            match adjust target_min_kb target_max_kb temp_size_kb st with
            | Accept =>
                match os_replace temp_path image_path fs1 with
                | Some fs2 => LoopResult Replaced st fs2 [st]
                | None => LoopResult Raised st fs1 [st]
                end
            | Stop => LoopResult Broke st fs1 [st]
            | Next st' =>
                with_trace st
                  (search_loop fuel' image_path target_min_kb target_max_kb img
                     st' (remove_if_exists temp_path fs1))
            end
        end
    end
  else LoopResult Exhausted st fs [].

(** ** [resize_image_to_target_size] *)

(** One constructor for each message that precedes a [return]. *)
Inductive verdict :=
| AlreadyInRange     (** line 43, [True] *)
| BackupFailed       (** line 52, [False] *)
| KeptOriginal       (** line 69, [True] *)
| Resized            (** line 106, [True] *)
| CloseEnough        (** line 137, [True] *)
| CouldNotAchieve    (** line 142, [False] *)
| ProcessingError.   (** line 146, [False] *)

Definition returned (v : verdict) : bool :=
  match v with
  | AlreadyInRange | KeptOriginal | Resized | CloseEnough => true
  | BackupFailed | CouldNotAchieve | ProcessingError => false
  end.

Record run := Run {
  run_verdict : verdict;
  run_fs : filesystem;
  run_trace : list search_state
}.

(** Lines 132-143, after the loop. *)
Definition after_loop (image_path : string) (target_max_kb : Z)
    (fs : filesystem) : verdict * filesystem :=
  let temp_path := temp_path_of image_path in
  match fs !! temp_path with
  | Some last =>
      let final_size := size_kb last in
      if Qle_bool final_size (inject_Z target_max_kb * (12 # 10)) then
        match os_replace temp_path image_path fs with
        | Some fs' => (CloseEnough, fs')
        | None => (ProcessingError, fs)
        end
      else (CouldNotAchieve, delete temp_path fs)
  | None => (CouldNotAchieve, fs)
  end.

(** Lines 72-82: the state the loop starts from. *)
Definition initial_state (target_max_kb quality_start : Z)
    (original_size_kb : Q) (img : image) : option search_state :=
  let '(original_width, original_height) := image_size img in
  if Qlt_bool (inject_Z (target_max_kb * 3)) original_size_kb then
    match scale_factor target_max_kb original_size_kb with
    | None => None
    | Some factor =>
        match scale_dimension original_width factor,
              scale_dimension original_height factor with
        | Some w, Some h => Some (SearchState w h quality_start 0)
        | _, _ => None
        end
    end
  else Some (SearchState original_width original_height quality_start 0).

(** Lines 55-147, the body of the [try]. *)
Definition process (image_path : string) (target_min_kb target_max_kb
    quality_start : Z) (original_size_kb : Q) (fs : filesystem) : run :=
  match fs !! image_path with
  | None => Run ProcessingError fs []
  | Some content =>
      match image_open content with
      | None => Run ProcessingError fs []
      | Some img =>
          if Qlt_bool original_size_kb (inject_Z target_min_kb) then
            Run KeptOriginal fs []
          else
            match initial_state target_max_kb quality_start original_size_kb img with
            | None => Run ProcessingError fs []
            | Some st0 =>
                let r := search_loop (Z.to_nat max_attempts) image_path
                           target_min_kb target_max_kb img st0 fs in
                match lr_exit r with
                | Replaced => Run Resized (lr_fs r) (lr_trace r)
                | Raised | OutOfFuel => Run ProcessingError (lr_fs r) (lr_trace r)
                | Broke | Exhausted =>
                    let '(v, fs') := after_loop image_path target_max_kb (lr_fs r) in
                    Run v fs' (lr_trace r)
                end
            end
      end
  end.

(** [if backup_dir:] is false for [None] and for the empty string. *)
Definition backup_requested (backup_dir : option string) : option string :=
  match backup_dir with
  | Some d => if decide (d = EmptyString) then None else Some d
  | None => None
  end.

(** [None]: the exception of [os.path.getsize] on a missing file, raised
    at line 38 outside any [try]. *)
Definition resize_image_to_target_size (image_path : string)
    (target_min_kb target_max_kb quality_start : Z)
    (backup_dir : option string) (fs : filesystem) : option run :=
  match fs !! image_path with
  | None => None
  | Some content =>
      let original_size_kb := size_kb content in
      if in_target_range target_min_kb target_max_kb original_size_kb then
        Some (Run AlreadyInRange fs [])
      else
        match backup_requested backup_dir with
        | Some d =>
            match create_backup image_path d fs with
            | None => Some (Run BackupFailed fs [])
            | Some (_, fs1) =>
                Some (process image_path target_min_kb target_max_kb
                        quality_start original_size_kb fs1)
            end
        | None =>
            Some (process image_path target_min_kb target_max_kb
                    quality_start original_size_kb fs)
        end
  end.

End Resize.

(** ** [main], lines 149-199 *)

Record arguments := Args {
  min_size : Z;
  max_size : Z;
  dry_run : bool;
  source_dir : string;
  backup : bool;
  backup_dir : string
}.

Record batch := Batch {
  success_count : nat;
  batch_log : list (string * verdict);   (** the verdict printed per file *)
  batch_fs : filesystem;
  batch_crashed : bool                   (** an exception escaped the loop *)
}.

Inductive main_result :=
| Exit1                                        (** source directory not found *)
| NoFiles
| DryRunReport (report : list (string * Q * bool))
| Summary (succeeded total : nat) (log : list (string * verdict))
| Crashed.

Section Main.
Context `{codec : Codec}.

(** Lines 190-193. *)
Fixpoint process_files (jpg_files : list string) (a : arguments)
    (backup_to : option string) (count : nat) (fs : filesystem) : batch :=
  match jpg_files with
  | [] => Batch count [] fs false
  | jpg_file :: rest =>
      match resize_image_to_target_size jpg_file (min_size a) (max_size a) 85
              backup_to fs with
      | None => Batch count [] fs true
      | Some r =>
          let count' := if returned (run_verdict r) then S count else count in
          let b := process_files rest a backup_to count' (run_fs r) in
          Batch (success_count b) ((jpg_file, run_verdict r) :: batch_log b)
                (batch_fs b) (batch_crashed b)
      end
  end.

(** Lines 177-180: a line per file, [true] for "OK". *)
Fixpoint dry_run_report (jpg_files : list string) (a : arguments)
    (fs : filesystem) : option (list (string * Q * bool)) :=
  match jpg_files with
  | [] => Some []
  | jpg_file :: rest =>
      match fs !! jpg_file with
      | None => None
      | Some content =>
          let size := size_kb content in
          match dry_run_report rest a fs with
          | Some lines =>
              Some ((jpg_file, size, in_target_range (min_size a) (max_size a) size)
                      :: lines)
          | None => None
          end
      end
  end.

(** [scan] is the directory traversal: [None] when the source directory
    does not exist, else the paths matching [*.jpg] and [*.JPG]. *)
Definition main (a : arguments) (scan : option (list string))
    (fs : filesystem) : main_result * filesystem :=
  match scan with
  | None => (Exit1, fs)
  | Some jpg_files =>
      match jpg_files with
      | [] => (NoFiles, fs)
      | _ =>
          if dry_run a then
            match dry_run_report jpg_files a fs with
            | Some report => (DryRunReport report, fs)
            | None => (Crashed, fs)
            end
          else
            let backup_to := if backup a then Some (backup_dir a) else None in
            let b := process_files jpg_files a backup_to 0 fs in
            if batch_crashed b then (Crashed, batch_fs b)
            else (Summary (success_count b) (length jpg_files) (batch_log b),
                  batch_fs b)
      end
  end.

End Main.

(** ** A small codec to run the program on

    A file starts with three bytes: width, height and a divisor [k]; what
    follows is ignored by the decoder (metadata).  Encoding [w x h] pixels
    at quality [q] writes the header and [w * h * q / k] more bytes.
    Resizing to an empty image raises, as Pillow does. *)

Module Toy.

Record toy_image := ToyImage { tw : positive; th : positive; tk : positive }.

Definition byte_to_Z (b : Byte.byte) : Z := Z.of_N (Byte.to_N b).

Definition byte_of_Z (z : Z) : Byte.byte :=
  match Byte.of_N (Z.to_N z) with
  | Some b => b
  | None => Byte.xff
  end.

Definition toy_open (content : list Byte.byte) : option toy_image :=
  match content with
  | w :: h :: k :: _ =>
      match byte_to_Z w, byte_to_Z h, byte_to_Z k with
      | Zpos pw, Zpos ph, Zpos pk => Some (ToyImage pw ph pk)
      | _, _, _ => None
      end
  | _ => None
  end.

Definition toy_size (im : toy_image) : Z * Z := (Zpos (tw im), Zpos (th im)).

Definition toy_resize (im : toy_image) (w h : Z) : option toy_image :=
  match w, h with
  | Zpos pw, Zpos ph => Some (ToyImage pw ph (tk im))
  | _, _ => None
  end.

Definition toy_save (im : toy_image) (q : Z) : option (list Byte.byte) :=
  Some (byte_of_Z (Zpos (tw im)) :: byte_of_Z (Zpos (th im))
          :: byte_of_Z (Zpos (tk im))
          :: repeat Byte.x00
               (Z.to_nat (Zpos (tw im) * Zpos (th im) * q / Zpos (tk im)))).

(** The content of a file of [n] bytes holding a [w x h] image. *)
Definition toy_file (w h k : Z) (n : Z) : list Byte.byte :=
  byte_of_Z w :: byte_of_Z h :: byte_of_Z k :: repeat Byte.x00 (Z.to_nat (n - 3)).

#[export] Instance toy_codec : Codec := {|
  image := toy_image;
  image_open := toy_open;
  image_size := toy_size;
  image_resize := toy_resize;
  image_save := toy_save;
  image_size_pos := fun im => conj (Pos2Z.is_pos (tw im)) (Pos2Z.is_pos (th im))
|}.

End Toy.

(** ** Runs on the small codec *)

Module Runs.
Import Toy.

(** A 10 x 10 image in a file of 3000 bytes. *)
Definition padded_file : list Byte.byte := toy_file 10 10 100 3000.

Definition padded_fs : filesystem := {[ "source/a.jpg"%string := padded_file ]}.

(** A 100 x 100 image in a file of 6100 bytes. *)
Definition slow_file : list Byte.byte := toy_file 100 100 140 6100.

Definition slow_fs : filesystem := {[ "source/a.jpg"%string := slow_file ]}.

(** A 1 x 200 image in a file of 4000 bytes. *)
Definition thin_file : list Byte.byte := toy_file 1 200 5 4000.

Definition thin_fs : filesystem := {[ "source/a.jpg"%string := thin_file ]}.

(** A file of 500 bytes outside the directory [source]. *)
Definition small_file : list Byte.byte := toy_file 10 10 100 500.

Definition photos_fs : filesystem := {[ "photos/a.jpg"%string := small_file ]}.

(** A file of 1500 bytes, within 1 to 2 KB. *)
Definition fitting_file : list Byte.byte := toy_file 10 10 100 1500.

Definition fitting_fs : filesystem := {[ "source/a.jpg"%string := fitting_file ]}.

(** A 100 x 100 image in a file of 9000 bytes, more than three times 2 KB. *)
Definition large_file : list Byte.byte := toy_file 100 100 100 9000.

Definition large_fs : filesystem := {[ "source/a.jpg"%string := large_file ]}.

(** Three files, the second one empty. *)
Definition batch_files : filesystem :=
  <[ "source/a.jpg"%string := padded_file ]>
    (<[ "source/bad.jpg"%string := [] ]>
       {[ "source/c.jpg"%string := fitting_file ]}).

Definition small_targets (dry : bool) : arguments :=
  Args 1 2 dry "source" false "backup_originals".

Definition first_state : search_state := SearchState 10 10 85 0.

Definition small_image : toy_image := ToyImage 10 10 100.

(** The image of [slow_file], and its state at the sixth attempt. *)
Definition slow_image : toy_image := ToyImage 100 100 140.

Definition floor_state : search_state := SearchState 100 100 60 5.

(** The image of [fitting_file] and of [padded_file] at the quality
    ceiling. *)
Definition ceiling_state : search_state := SearchState 10 10 95 2.

(** A 3900 x 2925 image. *)
Definition photo_image : toy_image := ToyImage 3900 2925 1.

(** A 65 x 130 image in a file of 8450 bytes: 2 KB is 1024/4225 of it,
    the square of 32/65. *)
Definition slanted_file : list Byte.byte := toy_file 65 130 100 8450.

Definition slanted_fs : filesystem := {[ "source/a.jpg"%string := slanted_file ]}.

(** A second image under [source], in a subdirectory. *)
Definition two_images : filesystem :=
  <[ "source/a.jpg"%string := padded_file ]>
    {[ "source/sub/a.jpg"%string := fitting_file ]}.
End Runs.

(** ** Predicates of the specification *)

(** The number of files of a batch log that returned [True]. *)
Definition succeeded_in (log : list (string * verdict)) : nat :=
  length (List.filter (fun e => returned (snd e)) log).


(** The state invariant of section 3 of the specification, with
    non-negative instead of positive dimensions. *)
Definition state_inv (st : search_state) : Prop :=
  1 <= quality st <= 100 /\ 0 <= width st /\ 0 <= height st /\
  0 <= attempts st <= max_attempts.

(** A float that is not a negative number: [int] of it is not negative. *)
Definition not_negative (x : spec_float) : Prop :=
  match x with
  | S754_finite true _ _ => False
  | _ => True
  end.

Section Endings.
Context `{codec : Codec}.

(** The ways a call can end, in terms of the loop. *)
Inductive ending (p : string) (lo hi q0 : Z) (fs : filesystem) (r : run) : Prop :=
| EndedEarly :
    run_fs r = fs -> run_trace r = [] ->
    run_verdict r <> Resized -> run_verdict r <> CloseEnough ->
    run_verdict r <> CouldNotAchieve ->
    ending p lo hi q0 fs r
| EndedInLoop (content : list Byte.byte) (img : image) (st0 : search_state)
    (lr : loop_result) :
    fs !! p = Some content -> image_open content = Some img ->
    initial_state hi q0 (size_kb content) img = Some st0 ->
    lr = search_loop (Z.to_nat max_attempts) p lo hi img st0 fs ->
    run_trace r = lr_trace lr ->
    match lr_exit lr with
    | Replaced => run_verdict r = Resized /\ run_fs r = lr_fs lr
    | Raised | OutOfFuel => run_verdict r = ProcessingError /\ run_fs r = lr_fs lr
    | Broke | Exhausted =>
        (run_verdict r, run_fs r) = after_loop p hi (lr_fs lr)
    end ->
    ending p lo hi q0 fs r.

End Endings.

Section Turns.
Context `{codec : Codec}.

(** The calls of lines 190-193: one call per file, in order, each on the
    file system the call before it left, with the verdict it returned. *)
Inductive processed_in_turn (a : arguments) (backup_to : option string) :
  list string -> filesystem -> list (string * verdict) -> filesystem -> Prop :=
| turn_none (fs : filesystem) :
    processed_in_turn a backup_to [] fs [] fs
| turn_next (jpg_file : string) (rest : list string) (fs : filesystem)
    (r : run) (log : list (string * verdict)) (fs' : filesystem) :
    resize_image_to_target_size jpg_file (min_size a) (max_size a) 85
      backup_to fs = Some r ->
    processed_in_turn a backup_to rest (run_fs r) log fs' ->
    processed_in_turn a backup_to (jpg_file :: rest) fs
      ((jpg_file, run_verdict r) :: log) fs'.

End Turns.

(** * Properties *)

(** ** Rationals and strings *)

Lemma Qlt_bool_iff (x y : Q) : Qlt_bool x y = true <-> (x < y)%Q.
Proof.
  unfold Qlt_bool. rewrite negb_true_iff. split.
  - intros H. apply Qnot_le_lt. intros Hle.
    apply Qle_bool_iff in Hle. congruence.
  - intros H. destruct (Qle_bool y x) eqn:E; [|reflexivity].
    apply Qle_bool_iff in E. exfalso. exact (Qlt_not_le _ _ H E).
Qed.

Lemma Qlt_bool_false (x y : Q) : Qlt_bool x y = false <-> (y <= x)%Q.
Proof.
  unfold Qlt_bool. rewrite negb_false_iff. apply Qle_bool_iff.
Qed.

Lemma size_kb_nonneg (c : list Byte.byte) : (0 <= size_kb c)%Q.
Proof. unfold size_kb, file_bytes, Qle. simpl. lia. Qed.

Lemma in_target_range_iff (lo hi : Z) (x : Q) :
  in_target_range lo hi x = true <-> (inject_Z lo <= x /\ x <= inject_Z hi)%Q.
Proof.
  unfold in_target_range. rewrite andb_true_iff, !Qle_bool_iff. tauto.
Qed.

Lemma string_length_app (s t : string) :
  String.length (s +:+ t) = (String.length s + String.length t)%nat.
Proof. induction s as [|a s IH]; simpl; [reflexivity | now rewrite IH]. Qed.

Lemma temp_path_neq (p : string) : temp_path_of p <> p.
Proof.
  unfold temp_path_of. intros H.
  apply (f_equal String.length) in H. rewrite string_length_app in H.
  simpl in H. lia.
Qed.

Lemma last_char_app (s t : string) :
  t <> EmptyString -> last_char (s +:+ t) = last_char t.
Proof.
  intros Ht. induction s as [|a s IH]; [reflexivity|].
  change (String a s +:+ t)%string with (String a (s +:+ t)).
  destruct (s +:+ t)%string as [|b u] eqn:E.
  - destruct s; simpl in E; [contradiction | discriminate].
  - rewrite <- IH. reflexivity.
Qed.

Lemma jpg_name_not_temp (p q : string) : jpg_name q -> q <> temp_path_of p.
Proof.
  intros [stem [H | H]] Heq; subst q; unfold temp_path_of in Heq;
    apply (f_equal last_char) in Heq;
    rewrite !last_char_app in Heq by discriminate; discriminate.
Qed.

(** ** The adjustment *)

Lemma shrink_quot (d : Z) : shrink d = Z.quot (d * 9) 10.
Proof. unfold shrink, int_of_Q. simpl. reflexivity. Qed.

Lemma shrink_bounds (d : Z) : 0 <= d -> 0 <= shrink d <= d.
Proof. intros H. rewrite shrink_quot. Z.quot_rem_to_equations. lia. Qed.

Lemma shrink_pos_iff (d : Z) : 0 <= d -> (0 < shrink d <-> 2 <= d).
Proof. intros H. rewrite shrink_quot. Z.quot_rem_to_equations. lia. Qed.

Lemma shrink_mono (d e : Z) : 0 <= d <= e -> shrink d <= shrink e.
Proof.
  intros H. rewrite !shrink_quot. Z.quot_rem_to_equations. lia.
Qed.

Lemma adjust_Accept lo hi s st :
  adjust lo hi s st = Accept <-> in_target_range lo hi s = true.
Proof.
  unfold adjust. destruct (in_target_range lo hi s); [tauto|].
  split; [|discriminate].
  destruct (Qlt_bool (inject_Z hi) s), (60 <? quality st), (quality st <? 95);
    discriminate.
Qed.

Lemma adjust_Stop lo hi s st :
  adjust lo hi s st = Stop ->
  in_target_range lo hi s = false /\ (s <= inject_Z hi)%Q /\ 95 <= quality st.
Proof.
  unfold adjust. destruct (in_target_range lo hi s); [discriminate|].
  destruct (Qlt_bool (inject_Z hi) s) eqn:E.
  - destruct (60 <? quality st); discriminate.
  - destruct (quality st <? 95) eqn:Q; [discriminate|]. intros _.
    apply Qlt_bool_false in E. apply Z.ltb_ge in Q. auto.
Qed.

Lemma adjust_Next lo hi s st st' :
  adjust lo hi s st = Next st' ->
  attempts st' = attempts st + 1 /\
  (1 <= quality st <= 100 -> 1 <= quality st' <= 100) /\
  (0 <= width st -> 0 <= width st' <= width st) /\
  (0 <= height st -> 0 <= height st' <= height st).
Proof.
  unfold adjust. destruct (in_target_range lo hi s); [discriminate|].
  destruct (Qlt_bool (inject_Z hi) s).
  - destruct (60 <? quality st) eqn:Q; intros [= <-]; simpl;
      [apply Z.ltb_lt in Q | apply Z.ltb_ge in Q];
      repeat split; intros; try apply shrink_bounds; lia.
  - destruct (quality st <? 95) eqn:Q; [|discriminate]. intros [= <-]; simpl.
    apply Z.ltb_lt in Q. repeat split; intros; lia.
Qed.

(** ** The file system *)

Lemma os_replace_fresh (src dst : string) (c : list Byte.byte) (fs : filesystem) :
  os_replace src dst (<[src := c]> fs) = Some (<[dst := c]> (delete src fs)).
Proof.
  unfold os_replace. rewrite lookup_insert_eq. f_equal. f_equal.
  apply delete_insert_eq.
Qed.

Lemma strip_prefix_spec (pre s rest : string) :
  strip_prefix pre s = Some rest <-> s = (pre +:+ rest)%string.
Proof.
  revert s. induction pre as [|a pre IH]; intros s; simpl.
  - split; [intros [= ->]; reflexivity | intros ->; reflexivity].
  - destruct s as [|b s]; [split; discriminate|].
    destruct (Ascii.eqb a b) eqn:E.
    + apply Ascii.eqb_eq in E. subst b. rewrite IH.
      split; [intros ->; reflexivity | intros [= ->]; reflexivity].
    + apply Ascii.eqb_neq in E. split; [discriminate|].
      intros [= H _]. congruence.
Qed.

Lemma create_backup_inv (p d bf : string) (fs fs1 : filesystem) :
  create_backup p d fs = Some (bf, fs1) ->
  exists rel content,
    p = ("source/" +:+ rel)%string /\ bf = backup_file_path d rel /\
    bf <> p /\ fs !! p = Some content /\ fs1 = <[bf := content]> fs /\
    mkdir_blocked (backup_directories d rel) fs = false.
Proof.
  unfold create_backup, relative_to_source.
  destruct (strip_prefix "source/" p) as [rel|] eqn:R; [|discriminate].
  apply strip_prefix_spec in R.
  destruct (mkdir_blocked _ fs) eqn:M; [discriminate|].
  destruct (fs !! p) as [content|] eqn:Hp; [|discriminate].
  case_decide as Hne; [discriminate|]. intros [= <- <-].
  exists rel, content. auto 6.
Qed.

Lemma create_backup_lookup (image_path d backup_file : string) (fs fs1 : filesystem) :
  create_backup image_path d fs = Some (backup_file, fs1) ->
  fs1 !! image_path = fs !! image_path /\
  (forall p, is_Some (fs !! p) -> is_Some (fs1 !! p)).
Proof.
  intros B. destruct (create_backup_inv _ _ _ _ _ B)
    as (rel & content & _ & _ & Hne & Hp & -> & _).
  split.
  - apply lookup_insert_ne. exact Hne.
  - intros q Hq. rewrite lookup_insert. case_decide; eauto.
Qed.

(** ** The search loop *)

Section Loop.
Context `{codec : Codec}.
Variables (image_path : string) (target_min_kb target_max_kb : Z) (img : image).

Local Abbreviation loop fuel :=
  (search_loop fuel image_path target_min_kb target_max_kb img).
Local Abbreviation temp_path := (temp_path_of image_path).

Ltac loop_body st :=
  simpl;
  destruct (attempts st <? max_attempts) eqn:?; simpl;
  [ destruct (encode_at img st) as [?encoded|] eqn:?; simpl;
    [ destruct (adjust target_min_kb target_max_kb (size_kb _) st)
        as [|?st'|] eqn:?; simpl;
      [ rewrite ?os_replace_fresh; simpl | | ]
    | ]
  | ].

Lemma search_loop_fuel (fuel : nat) (st : search_state) (fs : filesystem) :
  max_attempts - attempts st <= Z.of_nat fuel ->
  lr_exit (loop fuel st fs) <> OutOfFuel.
Proof.
  revert st fs. induction fuel as [|fuel IH]; intros st fs Hfuel.
  - simpl. destruct (attempts st <? max_attempts) eqn:E; simpl; [|discriminate].
    apply Z.ltb_lt in E. lia.
  - loop_body st; try discriminate.
    apply IH. match goal with H : adjust _ _ _ _ = Next _ |- _ =>
      apply adjust_Next in H; destruct H as [-> _] end. lia.
Qed.

(** Only an accepted encoding touches the image file. *)
Lemma search_loop_image (fuel : nat) (st : search_state) (fs : filesystem) :
  lr_exit (loop fuel st fs) <> Replaced ->
  lr_fs (loop fuel st fs) !! image_path = fs !! image_path.
Proof.
  revert st fs. induction fuel as [|fuel IH]; intros st fs.
  - simpl. destruct (attempts st <? max_attempts); reflexivity.
  - loop_body st; intros Hexit; try reflexivity; try congruence.
    + rewrite IH by assumption. unfold remove_if_exists.
      rewrite lookup_delete_ne by apply temp_path_neq.
      apply lookup_insert_ne, temp_path_neq.
    + apply lookup_insert_ne, temp_path_neq.
Qed.

(** Leaving the loop by its condition leaves no encoding behind. *)
Lemma search_loop_exhausted (fuel : nat) (st : search_state) (fs : filesystem) :
  attempts st < max_attempts \/ fs !! temp_path = None ->
  lr_exit (loop fuel st fs) = Exhausted ->
  lr_fs (loop fuel st fs) !! temp_path = None.
Proof.
  revert st fs. induction fuel as [|fuel IH]; intros st fs Hst.
  - simpl. destruct (attempts st <? max_attempts) eqn:E; simpl; [discriminate|].
    apply Z.ltb_ge in E. intros _. destruct Hst; [lia | assumption].
  - loop_body st; try discriminate.
    + apply IH. right. apply lookup_delete_eq.
    + intros _. match goal with H : (_ <? _) = false |- _ =>
        apply Z.ltb_ge in H end. destruct Hst; [lia | assumption].
Qed.

(** [break] keeps the last encoding: under the target, at the ceiling. *)
Lemma search_loop_broke (fuel : nat) (st : search_state) (fs : filesystem) :
  lr_exit (loop fuel st fs) = Broke ->
  exists encoded,
    lr_fs (loop fuel st fs) !! temp_path = Some encoded /\
    encode_at img (lr_state (loop fuel st fs)) = Some encoded /\
    in_target_range target_min_kb target_max_kb (size_kb encoded) = false /\
    (size_kb encoded <= inject_Z target_max_kb)%Q /\
    95 <= quality (lr_state (loop fuel st fs)).
Proof.
  revert st fs. induction fuel as [|fuel IH]; intros st fs.
  - simpl. destruct (attempts st <? max_attempts); discriminate.
  - loop_body st; try discriminate.
    + apply IH.
    + intros _. exists encoded. rewrite lookup_insert_eq.
      match goal with H : adjust _ _ _ _ = Stop |- _ =>
        apply adjust_Stop in H; destruct H as (? & ? & ?) end. auto.
Qed.

(** An accepted encoding is in range and has replaced the image. *)
Lemma search_loop_replaced (fuel : nat) (st : search_state) (fs : filesystem) :
  lr_exit (loop fuel st fs) = Replaced ->
  exists encoded,
    lr_fs (loop fuel st fs) !! image_path = Some encoded /\
    encode_at img (lr_state (loop fuel st fs)) = Some encoded /\
    in_target_range target_min_kb target_max_kb (size_kb encoded) = true.
Proof.
  revert st fs. induction fuel as [|fuel IH]; intros st fs.
  - simpl. destruct (attempts st <? max_attempts); discriminate.
  - loop_body st; try discriminate.
    + intros _. exists encoded. rewrite lookup_insert_eq.
      match goal with H : adjust _ _ _ _ = Accept |- _ =>
        apply adjust_Accept in H end. auto.
    + apply IH.
Qed.

(** Files other than the image and its temporary file are not touched. *)
Lemma search_loop_frame (fuel : nat) (st : search_state) (fs : filesystem) (p : string) :
  p <> image_path -> p <> temp_path ->
  lr_fs (loop fuel st fs) !! p = fs !! p.
Proof.
  intros Hp Ht. revert st fs. induction fuel as [|fuel IH]; intros st fs.
  - simpl. destruct (attempts st <? max_attempts); reflexivity.
  - loop_body st; try reflexivity.
    + rewrite lookup_insert_ne, lookup_delete_ne by congruence. reflexivity.
    + rewrite IH. unfold remove_if_exists.
      rewrite lookup_delete_ne, lookup_insert_ne by congruence. reflexivity.
    + rewrite lookup_insert_ne by congruence. reflexivity.
Qed.

(** The image file exists after the loop if it did before. *)
Lemma search_loop_keeps_image (fuel : nat) (st : search_state) (fs : filesystem) :
  is_Some (fs !! image_path) ->
  is_Some (lr_fs (loop fuel st fs) !! image_path).
Proof.
  intros Hfs.
  destruct (lr_exit (loop fuel st fs)) eqn:E;
    try (rewrite search_loop_image by congruence; assumption).
  destruct (search_loop_replaced _ _ _ E) as (c & -> & _). eauto.
Qed.

Lemma search_loop_trace (fuel : nat) (st : search_state) (fs : filesystem) :
  state_inv st ->
  Forall (fun s => state_inv s /\ attempts s < max_attempts /\
                   width s <= width st /\ height s <= height st)
    (lr_trace (loop fuel st fs)) /\
  Z.of_nat (length (lr_trace (loop fuel st fs))) <= max_attempts - attempts st /\
  state_inv (lr_state (loop fuel st fs)) /\
  attempts (lr_state (loop fuel st fs)) <= max_attempts.
Proof.
  revert st fs. induction fuel as [|fuel IH]; intros st fs Hinv.
  - simpl. destruct (attempts st <? max_attempts) eqn:E; simpl;
      [apply Z.ltb_lt in E | apply Z.ltb_ge in E];
      (split; [constructor|]); unfold state_inv in *; unfold max_attempts in *;
      simpl; lia.
  - assert (Hhere : attempts st < max_attempts ->
              state_inv st /\ attempts st < max_attempts /\
              width st <= width st /\ height st <= height st)
      by (intros; repeat split; try apply Hinv; lia).
    loop_body st;
      match goal with H : (_ <? _) = true |- _ => apply Z.ltb_lt in H
                    | H : (_ <? _) = false |- _ => apply Z.ltb_ge in H end;
      try (split; [repeat constructor; auto|];
           unfold state_inv, max_attempts in *; simpl; lia).
    match goal with H : adjust _ _ _ _ = Next _ |- _ =>
      apply adjust_Next in H; destruct H as (Ha & Hq & Hw & Hh) end.
    destruct Hinv as (Iq & Iw & Ih & Ia).
    specialize (Hq Iq). specialize (Hw Iw). specialize (Hh Ih).
    destruct (IH st' (remove_if_exists temp_path (<[temp_path := encoded]> fs)))
      as (Ht & Hl & Hs & Hb).
    { unfold state_inv, max_attempts in *. lia. }
    split; [|split; [lia | split; assumption]].
    constructor; [apply Hhere; assumption|].
    eapply Forall_impl; [exact Ht|]. simpl. intros s (? & ? & ? & ?).
    split; [assumption|]. split; [assumption|]. lia.
Qed.

Lemma search_loop_first (fuel : nat) (st : search_state) (fs : filesystem) :
  attempts st < max_attempts ->
  exists rest, lr_trace (loop (S fuel) st fs) = st :: rest.
Proof.
  intros H. apply Z.ltb_lt in H. simpl. rewrite H.
  destruct (encode_at img st); simpl; [|eauto].
  destruct (adjust _ _ _ st); simpl; [|eauto|eauto].
  rewrite os_replace_fresh. simpl. eauto.
Qed.

End Loop.

(** ** Pre-scaling *)

Lemma binary_round_aux_not_negative (m e : Z) (l : location) :
  not_negative (binary_round_aux prec emax false m e l).
Proof.
  unfold binary_round_aux.
  destruct (shr_fexp prec emax m e l) as [mrs' e'].
  destruct (shr_fexp prec emax _ e' loc_Exact) as [mrs'' e''].
  destruct (shr_m mrs''); simpl; [exact I | | exact I].
  destruct (_ <=? _); exact I.
Qed.

Lemma binary_round_not_negative (m : positive) (e : Z) :
  not_negative (binary_round prec emax false m e).
Proof.
  unfold binary_round. destruct (shl_align m e _) as [mz ez].
  apply binary_round_aux_not_negative.
Qed.

Lemma binary_normalize_not_negative (z e : Z) :
  0 <= z -> not_negative (binary_normalize prec emax z e false).
Proof.
  intros Hz. destruct z as [|p|p]; simpl; [exact I | | lia].
  apply binary_round_not_negative.
Qed.

Lemma SF2Prim_not_negative (x : spec_float) :
  not_negative x -> not_negative (Prim2SF (SF2Prim x)).
Proof.
  destruct x as [s | s | | s m e]; simpl.
  - intros _. destruct s; vm_compute; exact I.
  - intros _. destruct s; vm_compute; exact I.
  - intros _. vm_compute. exact I.
  - destruct s; [contradiction|]. intros _.
    unfold Z.ldexp. rewrite ldshiftexp_spec, of_uint63_spec.
    pose proof (Uint63.to_Z_bounded (Uint63.of_Z (Z.pos m))) as Hb.
    pose proof (binary_normalize_not_negative _ 0 (proj1 Hb)) as Hn.
    destruct (binary_normalize _ _ _ _ _) as [s | s | | s m' e'];
      simpl; try exact I.
    destruct s; [contradiction|]. apply binary_round_not_negative.
Qed.

Lemma sqrt_not_negative (x : float) : not_negative (Prim2SF (PrimFloat.sqrt x)).
Proof.
  rewrite sqrt_spec. unfold SF64sqrt, SFsqrt.
  destruct (Prim2SF x) as [s | s | | s m e]; try exact I.
  - destruct s; exact I.
  - destruct s; [exact I|].
    destruct (SFsqrt_core_binary prec emax (Z.pos m) e) as [[mz ez] lz].
    apply binary_round_aux_not_negative.
Qed.

Lemma float_of_Z_not_negative (d : Z) (f : float) :
  0 <= d -> Binary64.float_of_Z d = Some f -> not_negative (Prim2SF f).
Proof.
  intros Hd. unfold Binary64.float_of_Z.
  pose proof (binary_normalize_not_negative d 0 Hd) as Hn.
  set (x := binary_normalize prec emax d 0 false) in *.
  intros H. assert (Hf : f = SF2Prim x) by (destruct x; congruence).
  rewrite Hf. apply SF2Prim_not_negative. exact Hn.
Qed.

Lemma mul_not_negative (x y : float) :
  not_negative (Prim2SF x) -> not_negative (Prim2SF y) ->
  not_negative (Prim2SF (x * y)%float).
Proof.
  rewrite mul_spec. unfold SF64mul, SFmul.
  destruct (Prim2SF x) as [sx | sx | | sx mx ex];
    destruct (Prim2SF y) as [sy | sy | | sy my ey]; try (intros; exact I).
  destruct sx; [contradiction|]. destruct sy; [contradiction|]. intros _ _.
  apply binary_round_aux_not_negative.
Qed.

Lemma int_of_float_nonneg (f : float) (w : Z) :
  not_negative (Prim2SF f) -> Binary64.int_of_float f = Some w -> 0 <= w.
Proof.
  unfold Binary64.int_of_float.
  destruct (Prim2SF f) as [s | s | | s m e]; try discriminate.
  - intros _ [= <-]. lia.
  - destruct s; [contradiction|]. intros _ [= <-].
    destruct (0 <=? e) eqn:E.
    + apply Z.leb_le in E. apply Z.mul_nonneg_nonneg; [lia|].
      apply Z.pow_nonneg. lia.
    + apply Z.div_pos; [lia|]. apply Z.pow_pos_nonneg; [lia|].
      apply Z.leb_gt in E. lia.
Qed.

Lemma scale_factor_not_negative (target_max_kb : Z) (s : Q) (factor : float) :
  scale_factor target_max_kb s = Some factor -> not_negative (Prim2SF factor).
Proof.
  unfold scale_factor.
  destruct (float_of_Q s); [|discriminate].
  destruct (Binary64.float_of_Z _); [|discriminate].
  destruct (_ =? 0)%float; [discriminate|].
  destruct (_ <? 0)%float; [discriminate|]. intros [= <-].
  apply sqrt_not_negative.
Qed.

(** Pre-scaling never gives a negative dimension. *)
Lemma scale_dimension_nonneg (d w : Z) (factor : float) :
  0 <= d -> not_negative (Prim2SF factor) ->
  scale_dimension d factor = Some w -> 0 <= w.
Proof.
  intros Hd Hf. unfold scale_dimension.
  destruct (Binary64.float_of_Z d) as [f|] eqn:E; [|discriminate].
  apply int_of_float_nonneg.
  apply mul_not_negative; [exact (float_of_Z_not_negative _ _ Hd E) | exact Hf].
Qed.

(** ** After the loop, and the whole function *)

Section Function.
Context `{codec : Codec}.

Lemma after_loop_temp (p : string) (hi : Z) (fs : filesystem) (last : list Byte.byte) :
  fs !! temp_path_of p = Some last ->
  after_loop p hi fs =
    if Qle_bool (size_kb last) (inject_Z hi * (12 # 10))
    then (CloseEnough, <[p := last]> (delete (temp_path_of p) fs))
    else (CouldNotAchieve, delete (temp_path_of p) fs).
Proof.
  intros H. unfold after_loop, os_replace. rewrite H.
  destruct (Qle_bool _ _); reflexivity.
Qed.

Lemma after_loop_no_temp (p : string) (hi : Z) (fs : filesystem) :
  fs !! temp_path_of p = None -> after_loop p hi fs = (CouldNotAchieve, fs).
Proof. intros H. unfold after_loop. rewrite H. reflexivity. Qed.

Lemma after_loop_image (p : string) (hi : Z) (fs : filesystem) :
  returned (fst (after_loop p hi fs)) = false ->
  snd (after_loop p hi fs) !! p = fs !! p.
Proof.
  destruct (fs !! temp_path_of p) as [last|] eqn:E.
  - rewrite (after_loop_temp _ _ _ _ E).
    destruct (Qle_bool _ _); simpl; [discriminate|]. intros _.
    apply lookup_delete_ne, temp_path_neq.
  - rewrite (after_loop_no_temp _ _ _ E). reflexivity.
Qed.

Lemma after_loop_frame (p q : string) (hi : Z) (fs : filesystem) :
  q <> p -> q <> temp_path_of p ->
  snd (after_loop p hi fs) !! q = fs !! q.
Proof.
  intros Hp Ht. destruct (fs !! temp_path_of p) as [last|] eqn:E.
  - rewrite (after_loop_temp _ _ _ _ E).
    destruct (Qle_bool _ _); simpl;
      rewrite ?lookup_insert_ne, lookup_delete_ne by congruence; reflexivity.
  - rewrite (after_loop_no_temp _ _ _ E). reflexivity.
Qed.

Lemma after_loop_keeps_image (p : string) (hi : Z) (fs : filesystem) :
  is_Some (fs !! p) -> is_Some (snd (after_loop p hi fs) !! p).
Proof.
  intros H. destruct (fs !! temp_path_of p) as [last|] eqn:E.
  - rewrite (after_loop_temp _ _ _ _ E).
    destruct (Qle_bool _ _); simpl.
    + rewrite lookup_insert_eq. eauto.
    + rewrite lookup_delete_ne by apply temp_path_neq. assumption.
  - rewrite (after_loop_no_temp _ _ _ E). assumption.
Qed.

Lemma initial_state_spec (hi q0 : Z) (s : Q) (img : image) (st0 : search_state) :
  initial_state hi q0 s img = Some st0 ->
  quality st0 = q0 /\ attempts st0 = 0 /\
  0 <= width st0 /\ 0 <= height st0 /\
  if Qlt_bool (inject_Z (hi * 3)) s then
    exists factor,
      scale_factor hi s = Some factor /\
      scale_dimension (fst (image_size img)) factor = Some (width st0) /\
      scale_dimension (snd (image_size img)) factor = Some (height st0)
  else width st0 = fst (image_size img) /\ height st0 = snd (image_size img).
Proof.
  unfold initial_state.
  pose proof (image_size_pos img) as [Hw Hh].
  destruct (image_size img) as [ow oh]. simpl in *.
  destruct (Qlt_bool (inject_Z (hi * 3)) s) eqn:E;
    [|intros [= <-]; simpl; repeat split; lia].
  destruct (scale_factor hi s) as [factor|] eqn:F; [|discriminate].
  destruct (scale_dimension ow factor) as [w|] eqn:W; [|discriminate].
  destruct (scale_dimension oh factor) as [h|] eqn:H; [|discriminate].
  intros [= <-]. simpl.
  pose proof (scale_factor_not_negative _ _ _ F) as Hf.
  split; [reflexivity|]. split; [reflexivity|].
  split; [eapply scale_dimension_nonneg; eauto; lia|].
  split; [eapply scale_dimension_nonneg; eauto; lia|].
  exists factor. auto.
Qed.

Lemma initial_state_inv (hi q0 : Z) (s : Q) (img : image) (st0 : search_state) :
  1 <= q0 <= 100 ->
  initial_state hi q0 s img = Some st0 -> state_inv st0.
Proof.
  intros Hq H. apply initial_state_spec in H.
  destruct H as (<- & Ha & Hw & Hh & _).
  unfold state_inv, max_attempts. rewrite Ha. lia.
Qed.

End Function.

(** * The claims *)

Section Claims.
Context `{codec : Codec}.

Lemma process_failure_image (p : string) (lo hi q0 : Z) (s : Q) (fs : filesystem) :
  returned (run_verdict (process p lo hi q0 s fs)) = false ->
  run_fs (process p lo hi q0 s fs) !! p = fs !! p.
Proof.
  unfold process.
  destruct (fs !! p) as [content|] eqn:Hp; [|intros _; exact Hp].
  destruct (image_open content) as [img|]; [|intros _; exact Hp].
  destruct (Qlt_bool s (inject_Z lo)); [discriminate|].
  destruct (initial_state hi q0 s img) as [st0|]; [|intros _; exact Hp].
  set (r := search_loop _ p lo hi img st0 fs).
  pose proof (search_loop_image p lo hi img (Z.to_nat max_attempts) st0 fs) as Him.
  fold r in Him. rewrite <- Hp.
  destruct (lr_exit r) eqn:E; simpl; try discriminate;
    try (intros _; apply Him; discriminate).
  - rewrite <- Him by discriminate.
    pose proof (after_loop_image p hi (lr_fs r)) as Ha.
    destruct (after_loop p hi (lr_fs r)) as [v fs']. exact Ha.
  - rewrite <- Him by discriminate.
    pose proof (after_loop_image p hi (lr_fs r)) as Ha.
    destruct (after_loop p hi (lr_fs r)) as [v fs']. exact Ha.
Qed.

(** C10.  Whenever [resize_image_to_target_size] returns [False], the
    image file holds what it held before the call. *)
Theorem failure_leaves_image_untouched (image_path : string)
    (target_min_kb target_max_kb quality_start : Z)
    (backup_dir : option string) (fs : filesystem) (r : run) :
  resize_image_to_target_size image_path target_min_kb target_max_kb
    quality_start backup_dir fs = Some r ->
  returned (run_verdict r) = false ->
  run_fs r !! image_path = fs !! image_path.
Proof.
  unfold resize_image_to_target_size.
  destruct (fs !! image_path) as [content|] eqn:Hp; [|discriminate].
  destruct (in_target_range _ _ _); [intros [= <-]; discriminate|].
  destruct (backup_requested backup_dir) as [d|].
  - destruct (create_backup image_path d fs) as [[backup_file fs1]|] eqn:B.
    + intros [= <-] Hr. apply create_backup_lookup in B. destruct B as [B _].
      rewrite process_failure_image by assumption. congruence.
    + intros [= <-] _. exact Hp.
  - intros [= <-] Hr. rewrite process_failure_image by assumption. exact Hp.
Qed.

(** C5.  A file whose size is already within [min, max] is returned as
    it is: success, the same file system, and no encoding attempt. *)
Theorem in_range_is_noop (image_path : string)
    (target_min_kb target_max_kb quality_start : Z)
    (backup_dir : option string) (fs : filesystem) (content : list Byte.byte) :
  fs !! image_path = Some content ->
  in_target_range target_min_kb target_max_kb (size_kb content) = true ->
  exists r,
    resize_image_to_target_size image_path target_min_kb target_max_kb
      quality_start backup_dir fs = Some r /\
    returned (run_verdict r) = true /\
    run_fs r = fs /\
    run_fs r !! image_path = Some content /\
    run_trace r = [].
Proof.
  intros Hp Hin. unfold resize_image_to_target_size. rewrite Hp, Hin.
  eexists. split; [reflexivity|]. simpl. auto.
Qed.

(** C9.  With [--dry-run], [main] leaves the file system as it found it
    and produces no processing summary: it exits, reports, or stops on a
    file that cannot be measured. *)
Theorem dry_run_modifies_nothing (a : arguments) (scan : option (list string))
    (fs : filesystem) :
  dry_run a = true ->
  snd (main a scan fs) = fs /\
  forall succeeded total log, fst (main a scan fs) <> Summary succeeded total log.
Proof.
  intros Hdry. unfold main. rewrite Hdry.
  destruct scan as [[|f files]|]; simpl; try (split; [reflexivity|discriminate]).
  destruct (fs !! f); [|split; [reflexivity|discriminate]].
  destruct (dry_run_report files a fs); split; try reflexivity; discriminate.
Qed.


Lemma within_max_close_enough (x : Q) (hi : Z) :
  (0 <= x)%Q -> (x <= inject_Z hi)%Q -> (x <= inject_Z hi * (12 # 10))%Q.
Proof.
  intros H0 Hx. apply Qle_trans with (inject_Z hi); [assumption|].
  rewrite <- (Qmult_1_r (inject_Z hi)) at 1.
  apply Qmult_le_compat_nonneg.
  - split; [apply Qle_trans with x; assumption | apply Qle_refl].
  - split; discriminate.
Qed.

Lemma below_min_of_not_in_range (lo hi : Z) (x : Q) :
  in_target_range lo hi x = false -> (x <= inject_Z hi)%Q -> (x < inject_Z lo)%Q.
Proof.
  unfold in_target_range. intros H Hx. apply Qle_bool_iff in Hx. rewrite Hx in H.
  rewrite andb_true_r in H. apply Qlt_bool_iff. unfold Qlt_bool. now rewrite H.
Qed.

Lemma process_success (p : string) (lo hi q0 : Z) (s : Q) (fs : filesystem) :
  lo <= hi -> (0 <= s)%Q -> (inject_Z hi < s)%Q ->
  returned (run_verdict (process p lo hi q0 s fs)) = true ->
  exists final,
    run_fs (process p lo hi q0 s fs) !! p = Some final /\
    (size_kb final <= inject_Z hi * (12 # 10))%Q /\
    ((run_verdict (process p lo hi q0 s fs) = Resized /\
      in_target_range lo hi (size_kb final) = true) \/
     (run_verdict (process p lo hi q0 s fs) = CloseEnough /\
      (size_kb final < inject_Z lo)%Q)).
Proof.
  intros Hlohi Hs Hbig. unfold process.
  destruct (fs !! p) as [content|] eqn:Hp; [|discriminate].
  destruct (image_open content) as [img|]; [|discriminate].
  destruct (Qlt_bool s (inject_Z lo)) eqn:Hlow.
  { exfalso. apply Qlt_bool_iff in Hlow.
    assert (H : (s < s)%Q).
    { apply Qlt_trans with (inject_Z lo); [assumption|].
      apply Qle_lt_trans with (inject_Z hi); [|assumption].
      rewrite <- Zle_Qle. assumption. }
    exact (Qlt_irrefl _ H). }
  destruct (initial_state hi q0 s img) as [st0|] eqn:Hst; [|discriminate].
  apply initial_state_spec in Hst. destruct Hst as (_ & Hatt & _).
  set (r := search_loop _ p lo hi img st0 fs).
  destruct (lr_exit r) eqn:E; simpl; try discriminate.
  - intros _. destruct (search_loop_replaced p lo hi img _ st0 fs E)
      as (encoded & Hfs & _ & Hin).
    fold r in Hfs. exists encoded. split; [assumption|].
    split; [|left; auto].
    apply in_target_range_iff in Hin.
    apply within_max_close_enough; [apply size_kb_nonneg | apply Hin].
  - destruct (search_loop_broke p lo hi img _ st0 fs E)
      as (encoded & Hfs & _ & Hout & Hle & _).
    fold r in Hfs. rewrite (after_loop_temp _ _ _ _ Hfs).
    pose proof (within_max_close_enough _ _ (size_kb_nonneg encoded) Hle) as Hclose.
    apply Qle_bool_iff in Hclose. rewrite Hclose. simpl. intros _.
    exists encoded. rewrite lookup_insert_eq. split; [reflexivity|].
    split; [apply Qle_bool_iff; assumption|]. right. split; [reflexivity|].
    eapply below_min_of_not_in_range; eassumption.
  - pose proof (search_loop_exhausted p lo hi img (Z.to_nat max_attempts) st0 fs) as Hx.
    fold r in Hx. rewrite after_loop_no_temp; [discriminate|].
    apply Hx; [|assumption]. left. rewrite Hatt. reflexivity.
Qed.

(** C1, amended.  For a file above the maximum (and targets with
    [min <= max]), success means the image file now holds an encoding of
    at most [max * 1.2] KB: one within [min, max] accepted in the loop,
    or one below [min] kept when the loop stopped at the quality
    ceiling. *)
Theorem success_size_bound (image_path : string)
    (target_min_kb target_max_kb quality_start : Z)
    (backup_dir : option string) (fs : filesystem)
    (content : list Byte.byte) (r : run) :
  fs !! image_path = Some content ->
  target_min_kb <= target_max_kb ->
  (inject_Z target_max_kb < size_kb content)%Q ->
  resize_image_to_target_size image_path target_min_kb target_max_kb
    quality_start backup_dir fs = Some r ->
  returned (run_verdict r) = true ->
  exists final,
    run_fs r !! image_path = Some final /\
    (size_kb final <= inject_Z target_max_kb * (12 # 10))%Q /\
    ((run_verdict r = Resized /\
      in_target_range target_min_kb target_max_kb (size_kb final) = true) \/
     (run_verdict r = CloseEnough /\
      (size_kb final < inject_Z target_min_kb)%Q)).
Proof.
  intros Hp Hlohi Hbig. unfold resize_image_to_target_size. rewrite Hp.
  destruct (in_target_range _ _ _) eqn:Hin.
  { exfalso. apply in_target_range_iff in Hin. destruct Hin as [_ Hin].
    exact (Qlt_not_le _ _ Hbig Hin). }
  destruct (backup_requested backup_dir) as [d|].
  - destruct (create_backup image_path d fs) as [[backup_file fs1]|] eqn:B.
    + intros [= <-]. apply process_success; auto using size_kb_nonneg.
    + intros [= <-]. discriminate.
  - intros [= <-]. apply process_success; auto using size_kb_nonneg.
Qed.

End Claims.


(** C1, counterexample.  With targets of 1 to 2 KB, a file of 3000 bytes
    is re-encoded at qualities 85, 90 and 95, each time under 1 KB; the
    loop stops, the last encoding of 98 bytes replaces the image and the
    function returns [True] with a file below the minimum. *)
Lemma success_below_minimum :
  exists r final,
    resize_image_to_target_size (codec := Toy.toy_codec)
      "source/a.jpg" 1 2 85 None Runs.padded_fs = Some r /\
    (inject_Z 2 < size_kb Runs.padded_file)%Q /\
    returned (run_verdict r) = true /\
    run_fs r !! "source/a.jpg"%string = Some final /\
    ~ (inject_Z 1 <= size_kb final)%Q.
Proof.
  eexists. eexists. split; [vm_compute; reflexivity|].
  split; [reflexivity|]. split; [reflexivity|].
  split; [vm_compute; reflexivity|].
  apply Qlt_not_le. reflexivity.
Qed.

Lemma adjust_Next_dims lo hi s st st' :
  adjust lo hi s st = Next st' ->
  (width st' = width st /\ height st' = height st) \/
  (width st' = shrink (width st) /\ height st' = shrink (height st)).
Proof.
  unfold adjust. destruct (in_target_range lo hi s); [discriminate|].
  destruct (Qlt_bool (inject_Z hi) s).
  - destruct (60 <? quality st); intros [= <-]; simpl; auto.
  - destruct (quality st <? 95); [|discriminate]. intros [= <-]; simpl; auto.
Qed.

Lemma shrink_pos_inv (d : Z) : 0 < shrink d -> 0 < d.
Proof. rewrite shrink_quot. Z.quot_rem_to_equations. lia. Qed.

Lemma iter_shrink_pos (m : nat) (d : Z) : 0 < Nat.iter m shrink d -> 0 < d.
Proof.
  induction m as [|m IH]; simpl; [auto|].
  intros H. apply IH. apply shrink_pos_inv. exact H.
Qed.

Lemma iter_shrink_mono (m : nat) (d e : Z) :
  0 <= d <= e -> 0 <= Nat.iter m shrink d <= Nat.iter m shrink e.
Proof.
  intros H. induction m as [|m IH]; simpl; [exact H|].
  split; [apply shrink_bounds; lia | apply shrink_mono; exact IH].
Qed.

Section LoopPositive.
Context `{codec : Codec}.
Variables (image_path : string) (target_min_kb target_max_kb : Z) (img : image).

(** A dimension that survives as many reductions as there are attempts
    left is positive in every iteration. *)
Lemma search_loop_positive (fuel : nat) (st : search_state) (fs : filesystem) :
  0 < Nat.iter (Z.to_nat (max_attempts - attempts st)) shrink (width st) ->
  0 < Nat.iter (Z.to_nat (max_attempts - attempts st)) shrink (height st) ->
  Forall (fun s => 0 < width s /\ 0 < height s)
    (lr_trace (search_loop fuel image_path target_min_kb target_max_kb img st fs)).
Proof.
  revert st fs. induction fuel as [|fuel IH]; intros st fs Hw Hh.
  - simpl. destruct (attempts st <? max_attempts); constructor.
  - simpl. destruct (attempts st <? max_attempts) eqn:Ha; simpl; [|constructor].
    apply Z.ltb_lt in Ha.
    assert (Hhere : 0 < width st /\ 0 < height st)
      by (split; eapply iter_shrink_pos; eassumption).
    destruct (encode_at img st) as [encoded|]; simpl;
      [|repeat constructor; apply Hhere].
    destruct (adjust _ _ _ st) as [|st'|] eqn:Hadj; simpl.
    + rewrite os_replace_fresh. repeat constructor; apply Hhere.
    + constructor; [exact Hhere|].
      pose proof (adjust_Next _ _ _ _ _ Hadj) as (Hatt & _).
      replace (Z.to_nat (max_attempts - attempts st))
        with (S (Z.to_nat (max_attempts - attempts st'))) in Hw, Hh by lia.
      apply IH.
      * destruct (adjust_Next_dims _ _ _ _ _ Hadj) as [[-> _] | [-> _]].
        -- simpl in Hw. apply shrink_pos_inv in Hw. exact Hw.
        -- simpl in Hw. rewrite <- Nat.iter_swap in Hw. exact Hw.
      * destruct (adjust_Next_dims _ _ _ _ _ Hadj) as [[_ ->] | [_ ->]].
        -- simpl in Hh. apply shrink_pos_inv in Hh. exact Hh.
        -- simpl in Hh. rewrite <- Nat.iter_swap in Hh. exact Hh.
    + repeat constructor; apply Hhere.
Qed.

Lemma margin_survives (d : Z) :
  23 <= d -> 0 < Nat.iter (Z.to_nat max_attempts) shrink d.
Proof.
  intros H.
  pose proof (iter_shrink_mono (Z.to_nat max_attempts) 23 d ltac:(lia)) as [_ Hm].
  assert (E : Nat.iter (Z.to_nat max_attempts) shrink 23 = 1) by reflexivity.
  lia.
Qed.

Lemma budget_exhaustion_fails (fuel : nat) (st : search_state) (fs : filesystem) :
  attempts st < max_attempts ->
  let r := search_loop fuel image_path target_min_kb target_max_kb img st fs in
  lr_exit r = Exhausted ->
  after_loop image_path target_max_kb (lr_fs r) = (CouldNotAchieve, lr_fs r).
Proof.
  intros Ha r E. apply after_loop_no_temp.
  apply search_loop_exhausted; auto.
Qed.

End LoopPositive.

Section Claims.
Context `{codec : Codec}.

Lemma process_trace (p : string) (lo hi q0 : Z) (s : Q) (fs : filesystem) :
  (0 <= s)%Q -> 1 <= q0 <= 100 ->
  Z.of_nat (length (run_trace (process p lo hi q0 s fs))) <= max_attempts /\
  Forall (fun st => state_inv st /\ attempts st < max_attempts)
    (run_trace (process p lo hi q0 s fs)) /\
  forall st0 rest, run_trace (process p lo hi q0 s fs) = st0 :: rest ->
    23 <= width st0 -> 23 <= height st0 ->
    Forall (fun st => 0 < width st /\ 0 < height st)
      (run_trace (process p lo hi q0 s fs)).
Proof.
  intros Hs Hq.
  assert (Hnil : Z.of_nat (length (@nil search_state)) <= max_attempts /\
    Forall (fun st => state_inv st /\ attempts st < max_attempts) [] /\
    forall st0 rest, @nil search_state = st0 :: rest ->
      23 <= width st0 -> 23 <= height st0 ->
      Forall (fun st => 0 < width st /\ 0 < height st) (@nil search_state)).
  { split; [unfold max_attempts; simpl; lia|]. split; [constructor|]. discriminate. }
  unfold process.
  destruct (fs !! p) as [content|]; [|exact Hnil].
  destruct (image_open content) as [img|]; [|exact Hnil].
  destruct (Qlt_bool s (inject_Z lo)); [exact Hnil|].
  destruct (initial_state hi q0 s img) as [st0|] eqn:Hst; [|exact Hnil].
  pose proof (initial_state_inv _ _ _ _ _ Hq Hst) as Hinv.
  apply initial_state_spec in Hst. destruct Hst as (_ & Hatt & _).
  set (r := search_loop _ p lo hi img st0 fs).
  assert (Hr : Z.of_nat (length (lr_trace r)) <= max_attempts /\
    Forall (fun st => state_inv st /\ attempts st < max_attempts) (lr_trace r) /\
    forall st1 rest, lr_trace r = st1 :: rest ->
      23 <= width st1 -> 23 <= height st1 ->
      Forall (fun st => 0 < width st /\ 0 < height st) (lr_trace r)).
  { destruct (search_loop_trace p lo hi img (Z.to_nat max_attempts) st0 fs Hinv)
      as (Ht & Hl & _).
    fold r in Ht, Hl. split; [lia|]. split.
    - eapply Forall_impl; [exact Ht|]. simpl. tauto.
    - intros st1 rest Htr Hw Hh.
      destruct (search_loop_first p lo hi img 14 st0 fs) as [rest' Hfirst].
      { rewrite Hatt. reflexivity. }
      change (search_loop 15 p lo hi img st0 fs) with r in Hfirst.
      rewrite Hfirst in Htr. injection Htr as <- _.
      apply search_loop_positive; rewrite Hatt;
        apply margin_survives; assumption. }
  destruct (lr_exit r); simpl; try exact Hr.
  - destruct (after_loop p hi (lr_fs r)). exact Hr.
  - destruct (after_loop p hi (lr_fs r)). exact Hr.
Qed.

(** C3, amended.  With a starting quality in [1, 100], every iteration
    of the search loop runs with a quality in [1, 100], non-negative
    width and height and an attempt counter below 15, and there are at
    most 15 iterations.  Width and height are strictly positive in every
    iteration when the loop starts from at least 23 x 23 pixels. *)
Theorem search_state_invariant (image_path : string)
    (target_min_kb target_max_kb quality_start : Z)
    (backup_dir : option string) (fs : filesystem) (r : run) :
  1 <= quality_start <= 100 ->
  resize_image_to_target_size image_path target_min_kb target_max_kb
    quality_start backup_dir fs = Some r ->
  Z.of_nat (length (run_trace r)) <= max_attempts /\
  Forall (fun st => 1 <= quality st <= 100 /\ 0 <= width st /\ 0 <= height st /\
                    0 <= attempts st < max_attempts) (run_trace r) /\
  forall st0 rest, run_trace r = st0 :: rest ->
    23 <= width st0 -> 23 <= height st0 ->
    Forall (fun st => 0 < width st /\ 0 < height st) (run_trace r).
Proof.
  intros Hq. unfold resize_image_to_target_size.
  assert (Hweak : forall l : list search_state,
    Forall (fun st => state_inv st /\ attempts st < max_attempts) l ->
    Forall (fun st => 1 <= quality st <= 100 /\ 0 <= width st /\ 0 <= height st /\
                      0 <= attempts st < max_attempts) l).
  { intros l H. eapply Forall_impl; [exact H|]. unfold state_inv. simpl. intros; lia. }
  assert (Hproc : forall s fs', (0 <= s)%Q ->
    let r' := process image_path target_min_kb target_max_kb quality_start s fs' in
    Z.of_nat (length (run_trace r')) <= max_attempts /\
    Forall (fun st => 1 <= quality st <= 100 /\ 0 <= width st /\ 0 <= height st /\
                      0 <= attempts st < max_attempts) (run_trace r') /\
    forall st0 rest, run_trace r' = st0 :: rest ->
      23 <= width st0 -> 23 <= height st0 ->
      Forall (fun st => 0 < width st /\ 0 < height st) (run_trace r')).
  { intros s fs' Hs r'.
    destruct (process_trace image_path target_min_kb target_max_kb quality_start
                s fs' Hs Hq) as (H1 & H2 & H3).
    split; [exact H1|]. split; [apply Hweak; exact H2 | exact H3]. }
  assert (Hnil : forall v fs',
    let r' := Run v fs' [] in
    Z.of_nat (length (run_trace r')) <= max_attempts /\
    Forall (fun st => 1 <= quality st <= 100 /\ 0 <= width st /\ 0 <= height st /\
                      0 <= attempts st < max_attempts) (run_trace r') /\
    forall st0 rest, run_trace r' = st0 :: rest ->
      23 <= width st0 -> 23 <= height st0 ->
      Forall (fun st => 0 < width st /\ 0 < height st) (run_trace r')).
  { intros v fs' r'. simpl. split; [unfold max_attempts; lia|].
    split; [constructor | discriminate]. }
  destruct (fs !! image_path) as [content|]; [|discriminate].
  destruct (in_target_range _ _ _); [intros [= <-]; apply Hnil|].
  destruct (backup_requested backup_dir) as [d|].
  - destruct (create_backup image_path d fs) as [[backup_file fs1]|].
    + intros [= <-]. apply Hproc, size_kb_nonneg.
    + intros [= <-]. apply Hnil.
  - intros [= <-]. apply Hproc, size_kb_nonneg.
Qed.
End Claims.

Section Claims.
Context `{codec : Codec}.

(** C4.  One iteration of the search loop, from the size of what it
    encoded: in range, the encoding replaces the image and the function
    returns; too large, the quality goes down by 5 while it is above 60,
    and at 60 or less the width and the height become the integer parts
    of nine tenths of what they were and the quality becomes
    [min(85, quality + 10)]; too small, the quality goes up by 5 while it
    is below 95, and at 95 or more the loop stops and the under-target
    encoding is the one accepted. *)
Theorem loop_iteration (fuel : nat) (image_path : string)
    (target_min_kb target_max_kb : Z) (img : image)
    (st : search_state) (fs : filesystem) (encoded : list Byte.byte) :
  attempts st < max_attempts ->
  encode_at img st = Some encoded ->
  let temp_path := temp_path_of image_path in
  let size := size_kb encoded in
  let r := search_loop (S fuel) image_path target_min_kb target_max_kb img st fs in
  let continues_with st' :=
    r = with_trace st
          (search_loop fuel image_path target_min_kb target_max_kb img st'
             (delete temp_path (<[temp_path := encoded]> fs))) in
  ((inject_Z target_min_kb <= size /\ size <= inject_Z target_max_kb)%Q ->
     lr_exit r = Replaced /\ lr_trace r = [st] /\
     lr_fs r = <[image_path := encoded]> (delete temp_path fs)) /\
  ((inject_Z target_max_kb < size)%Q -> 60 < quality st ->
     continues_with
       (SearchState (width st) (height st) (quality st - 5) (attempts st + 1))) /\
  ((inject_Z target_max_kb < size)%Q -> quality st <= 60 ->
     continues_with
       (SearchState (Z.quot (width st * 9) 10) (Z.quot (height st * 9) 10)
          (Z.min 85 (quality st + 10)) (attempts st + 1))) /\
  ((size < inject_Z target_min_kb)%Q -> (size <= inject_Z target_max_kb)%Q ->
     quality st < 95 ->
     continues_with
       (SearchState (width st) (height st) (quality st + 5) (attempts st + 1))) /\
  ((size < inject_Z target_min_kb)%Q -> (size <= inject_Z target_max_kb)%Q ->
     95 <= quality st ->
     lr_exit r = Broke /\ lr_trace r = [st] /\
     lr_fs r = <[temp_path := encoded]> fs /\
     after_loop image_path target_max_kb (lr_fs r) =
       (CloseEnough, <[image_path := encoded]> (delete temp_path fs))).
Proof.
  intros Ha Henc temp_path size r continues_with.
  apply Z.ltb_lt in Ha.
  assert (Hr : r =
    match adjust target_min_kb target_max_kb size st with
    | Accept => LoopResult Replaced st
                  (<[image_path := encoded]> (delete temp_path fs)) [st]
    | Stop => LoopResult Broke st (<[temp_path := encoded]> fs) [st]
    | Next st' =>
        with_trace st
          (search_loop fuel image_path target_min_kb target_max_kb img st'
             (delete temp_path (<[temp_path := encoded]> fs)))
    end).
  { subst r. simpl. rewrite Ha, Henc. fold temp_path. fold size.
    destruct (adjust target_min_kb target_max_kb size st); try reflexivity.
    unfold temp_path. rewrite os_replace_fresh. reflexivity. }
  assert (Hlarge : (inject_Z target_max_kb < size)%Q ->
    in_target_range target_min_kb target_max_kb size = false /\
    Qlt_bool (inject_Z target_max_kb) size = true).
  { intros H. split; [|apply Qlt_bool_iff; exact H].
    destruct (in_target_range _ _ size) eqn:E; [|reflexivity].
    apply in_target_range_iff in E. destruct E as [_ E].
    exfalso. exact (Qlt_not_le _ _ H E). }
  assert (Hsmall : (size < inject_Z target_min_kb)%Q ->
    (size <= inject_Z target_max_kb)%Q ->
    in_target_range target_min_kb target_max_kb size = false /\
    Qlt_bool (inject_Z target_max_kb) size = false).
  { intros H H'. split; [|apply Qlt_bool_false; exact H'].
    destruct (in_target_range _ _ size) eqn:E; [|reflexivity].
    apply in_target_range_iff in E. destruct E as [E _].
    exfalso. exact (Qlt_not_le _ _ H E). }
  unfold continues_with.
rewrite <- (shrink_quot (width st)), <- (shrink_quot (height st)).
rewrite Hr. unfold adjust. repeat split.
  - apply in_target_range_iff in H. rewrite H. reflexivity.
  - apply in_target_range_iff in H. rewrite H. reflexivity.
  - apply in_target_range_iff in H. rewrite H. reflexivity.
  - intros H Hq. destruct (Hlarge H) as [-> ->].
    apply Z.ltb_lt in Hq. rewrite Hq. reflexivity.
  - intros H Hq. destruct (Hlarge H) as [-> ->].
    apply Z.ltb_ge in Hq. rewrite Hq. reflexivity.
  - intros H H' Hq. destruct (Hsmall H H') as [-> ->].
    apply Z.ltb_lt in Hq. rewrite Hq. reflexivity.
  - destruct (Hsmall H H0) as [-> ->].
    apply Z.ltb_ge in H1. rewrite H1. reflexivity.
  - destruct (Hsmall H H0) as [-> ->].
    apply Z.ltb_ge in H1. rewrite H1. reflexivity.
  - destruct (Hsmall H H0) as [-> ->].
    apply Z.ltb_ge in H1. rewrite H1. reflexivity.
  - destruct (Hsmall H H0) as [-> ->].
    apply Z.ltb_ge in H1. rewrite H1. simpl.
    rewrite (after_loop_temp _ _ _ encoded) by apply lookup_insert_eq.
    pose proof (within_max_close_enough _ _ (size_kb_nonneg encoded) H0) as Hc.
    apply Qle_bool_iff in Hc. rewrite Hc. rewrite delete_insert_eq. reflexivity.
Qed.
End Claims.

Section Claims.
Context `{codec : Codec}.

Lemma process_below_min (p : string) (lo hi q0 : Z) (s : Q) (fs : filesystem)
    (content : list Byte.byte) :
  fs !! p = Some content -> (s < inject_Z lo)%Q ->
  process p lo hi q0 s fs =
    Run (match image_open content with
         | Some _ => KeptOriginal
         | None => ProcessingError
         end) fs [].
Proof.
  intros Hp Hs. unfold process. rewrite Hp.
  destruct (image_open content); [|reflexivity].
  apply Qlt_bool_iff in Hs. rewrite Hs. reflexivity.
Qed.

(** C6, amended.  A file below the minimum is never re-encoded and keeps
    its content; the only file written is the backup copy, when one is
    requested.  The function returns [True] when the image decodes and the
    requested backup, if any, was made; it returns [False] when the backup
    fails or the file does not decode. *)
Theorem below_min_is_kept (image_path : string)
    (target_min_kb target_max_kb quality_start : Z)
    (backup_dir : option string) (fs : filesystem) (content : list Byte.byte) :
  fs !! image_path = Some content ->
  (size_kb content < inject_Z target_min_kb)%Q ->
  exists r,
    resize_image_to_target_size image_path target_min_kb target_max_kb
      quality_start backup_dir fs = Some r /\
    run_fs r !! image_path = Some content /\
    run_trace r = [] /\
    let decoded := match image_open content with
                 | Some _ => KeptOriginal
                 | None => ProcessingError
                 end in
    match backup_requested backup_dir with
    | None => run_verdict r = decoded /\ run_fs r = fs
    | Some d =>
        match create_backup image_path d fs with
        | None => run_verdict r = BackupFailed /\ run_fs r = fs
        | Some (backup_file, _) =>
            run_verdict r = decoded /\
            run_fs r = <[backup_file := content]> fs
        end
    end.
Proof.
  intros Hp Hs. unfold resize_image_to_target_size. rewrite Hp.
  destruct (in_target_range _ _ _) eqn:Hin.
  { exfalso. apply in_target_range_iff in Hin. destruct Hin as [Hin _].
    exact (Qlt_not_le _ _ Hs Hin). }
  destruct (backup_requested backup_dir) as [d|].
  - destruct (create_backup image_path d fs) as [[backup_file fs1]|] eqn:B.
    + pose proof (create_backup_lookup _ _ _ _ _ B) as [Hsame _].
      rewrite Hp in Hsame.
      eexists. split; [reflexivity|].
      rewrite (process_below_min _ _ _ _ _ _ _ Hsame Hs). simpl.
      split; [exact Hsame|]. split; [reflexivity|]. split; [reflexivity|].
      destruct (create_backup_inv _ _ _ _ _ B)
        as (rel & content' & _ & _ & _ & Hc & -> & _).
      rewrite Hp in Hc. injection Hc as <-. reflexivity.
    + eexists. split; [reflexivity|]. simpl. auto.
  - eexists. split; [reflexivity|].
    rewrite (process_below_min _ _ _ _ _ _ _ Hp Hs). simpl. auto.
Qed.

Lemma process_first (p : string) (lo hi q0 : Z) (s : Q) (fs : filesystem)
    (content : list Byte.byte) (img : image) (st0 : search_state)
    (rest : list search_state) :
  (0 <= s)%Q ->
  fs !! p = Some content -> image_open content = Some img ->
  run_trace (process p lo hi q0 s fs) = st0 :: rest ->
  initial_state hi q0 s img = Some st0.
Proof.
  intros Hs Hp Himg. unfold process. rewrite Hp, Himg.
  destruct (Qlt_bool s (inject_Z lo)); [discriminate|].
  destruct (initial_state hi q0 s img) as [st|] eqn:Hst; [|discriminate].
  pose proof (initial_state_spec _ _ _ _ _ Hst) as (_ & Hatt & _).
  destruct (search_loop_first p lo hi img 14 st fs) as [rest' Hfirst].
  { rewrite Hatt. reflexivity. }
  change (Z.to_nat max_attempts) with 15%nat.
  set (r := search_loop 15 p lo hi img st fs) in *.
  intros H. f_equal.
  assert (Htr : lr_trace r = st0 :: rest).
  { destruct (lr_exit r); simpl in H;
      try exact H; destruct (after_loop _ _ _); exact H. }
  rewrite Hfirst in Htr. congruence.
Qed.

Lemma float_of_1024 : Binary64.float_of_Z 1024 = Some 1024%float.
Proof. vm_compute. reflexivity. Qed.

(** C7, amended.  The state of the first iteration.  The quality is the
    starting quality and the attempt counter is 0.  When the file is
    larger than three times the maximum, the width and the height are
    those of lines 79-81, computed on binary64 floats: the integer part of
    the product of the original one and the square root of
    [target_max_kb * 1024 / (original_size_kb * 1024)], every operation
    rounded to the nearest float; they are not negative.  Otherwise they
    are the original dimensions. *)
Theorem first_iteration_dimensions (image_path : string)
    (target_min_kb target_max_kb quality_start : Z)
    (backup_dir : option string) (fs : filesystem)
    (content : list Byte.byte) (img : image) (r : run)
    (st0 : search_state) (rest : list search_state) :
  fs !! image_path = Some content ->
  image_open content = Some img ->
  resize_image_to_target_size image_path target_min_kb target_max_kb
    quality_start backup_dir fs = Some r ->
  run_trace r = st0 :: rest ->
  let original_width := fst (image_size img) in
  let original_height := snd (image_size img) in
  quality st0 = quality_start /\ attempts st0 = 0 /\
  ((inject_Z (target_max_kb * 3) < size_kb content)%Q ->
     exists file_size numerator w h : float,
       Binary64.float_of_Z (file_bytes content) = Some file_size /\
       Binary64.float_of_Z (target_max_kb * 1024) = Some numerator /\
       Binary64.float_of_Z original_width = Some w /\
       Binary64.float_of_Z original_height = Some h /\
       let original_size_kb := (file_size / 1024)%float in
       let factor :=
         PrimFloat.sqrt (numerator / (original_size_kb * 1024))%float in
       Binary64.int_of_float (w * factor)%float = Some (width st0) /\
       Binary64.int_of_float (h * factor)%float = Some (height st0) /\
       0 <= width st0 /\ 0 <= height st0) /\
  (~ (inject_Z (target_max_kb * 3) < size_kb content)%Q ->
     width st0 = original_width /\ height st0 = original_height).
Proof.
  intros Hp Himg Hrun Htr. simpl.
  assert (Hst : initial_state target_max_kb quality_start (size_kb content) img
                = Some st0).
  { unfold resize_image_to_target_size in Hrun. rewrite Hp in Hrun.
    destruct (in_target_range _ _ _);
      [injection Hrun as <-; discriminate|].
    destruct (backup_requested backup_dir) as [d|].
    - destruct (create_backup image_path d fs) as [[backup_file fs1]|] eqn:B;
        [|injection Hrun as <-; discriminate].
      injection Hrun as <-.
      pose proof (create_backup_lookup _ _ _ _ _ B) as [Hsame _].
      rewrite Hp in Hsame.
      eapply process_first; eauto using size_kb_nonneg.
    - injection Hrun as <-.
      eapply process_first; eauto using size_kb_nonneg. }
  apply initial_state_spec in Hst.
  destruct Hst as (Hq & Ha & Hw & Hh & Hdims).
  split; [exact Hq|]. split; [exact Ha|].
  destruct (Qlt_bool _ _) eqn:E.
  - split; [|intros Hn; exfalso; apply Hn; apply Qlt_bool_iff; exact E].
    intros _. destruct Hdims as (factor & Hf & Hsw & Hsh).
    unfold scale_factor, float_of_Q, size_kb in Hf. cbn [Qnum Qden] in Hf.
    rewrite float_of_1024 in Hf.
    destruct (Binary64.float_of_Z (file_bytes content)) as [file_size|];
      [|discriminate].
    destruct (Binary64.float_of_Z (target_max_kb * 1024)) as [numerator|];
      [|discriminate].
    destruct (_ =? 0)%float; [discriminate|].
    destruct (_ <? 0)%float; [discriminate|].
    injection Hf as <-.
    unfold scale_dimension in Hsw, Hsh.
    destruct (Binary64.float_of_Z (fst (image_size img))) as [w|];
      [|discriminate].
    destruct (Binary64.float_of_Z (snd (image_size img))) as [h|];
      [|discriminate].
    exists file_size, numerator, w, h. auto 10.
  - split; [|intros _; exact Hdims].
    intros H. apply Qlt_bool_iff in H. congruence.
Qed.

End Claims.

Section Batch.
Context `{codec : Codec}.

Lemma process_keeps_files (p q : string) (lo hi q0 : Z) (s : Q) (fs : filesystem) :
  q <> temp_path_of p -> is_Some (fs !! q) ->
  is_Some (run_fs (process p lo hi q0 s fs) !! q).
Proof.
  intros Ht Hq. unfold process.
  destruct (fs !! p) as [content|] eqn:Hp; [|exact Hq].
  destruct (image_open content) as [img|]; [|exact Hq].
  destruct (Qlt_bool s (inject_Z lo)); [exact Hq|].
  destruct (initial_state hi q0 s img) as [st0|]; [|exact Hq].
  set (r := search_loop _ p lo hi img st0 fs).
  assert (Hr : is_Some (lr_fs r !! q)).
  { destruct (decide (q = p)) as [->|Hne].
    - apply search_loop_keeps_image. exact Hq.
    - unfold r. rewrite search_loop_frame by assumption. exact Hq. }
  assert (Ha : is_Some (snd (after_loop p hi (lr_fs r)) !! q)).
  { destruct (decide (q = p)) as [->|Hne].
    - apply after_loop_keeps_image. exact Hr.
    - rewrite after_loop_frame by assumption. exact Hr. }
  destruct (lr_exit r); simpl; try exact Hr;
    destruct (after_loop p hi (lr_fs r)); exact Ha.
Qed.

Lemma resize_keeps_files (p q : string) (lo hi q0 : Z)
    (backup_to : option string) (fs : filesystem) (r : run) :
  resize_image_to_target_size p lo hi q0 backup_to fs = Some r ->
  q <> temp_path_of p -> is_Some (fs !! q) -> is_Some (run_fs r !! q).
Proof.
  unfold resize_image_to_target_size.
  destruct (fs !! p) as [content|]; [|discriminate].
  destruct (in_target_range _ _ _); [intros [= <-]; auto|].
  destruct (backup_requested backup_to) as [d|].
  - destruct (create_backup p d fs) as [[backup_file fs1]|] eqn:B.
    + intros [= <-] Ht Hq. apply process_keeps_files; [assumption|].
      apply (create_backup_lookup _ _ _ _ _ B). exact Hq.
    + intros [= <-]; auto.
  - intros [= <-] Ht Hq. apply process_keeps_files; assumption.
Qed.

Lemma resize_returns (p : string) (lo hi q0 : Z) (backup_to : option string)
    (fs : filesystem) :
  is_Some (fs !! p) ->
  exists r, resize_image_to_target_size p lo hi q0 backup_to fs = Some r.
Proof.
  intros [content Hp]. unfold resize_image_to_target_size. rewrite Hp.
  destruct (in_target_range _ _ _); [eauto|].
  destruct (backup_requested backup_to) as [d|]; [|eauto].
  destruct (create_backup p d fs) as [[? ?]|]; eauto.
Qed.

(** A file that does not decode: the function returns [False] and the file
    is as it was. *)
Lemma decode_error_fails (p : string) (lo hi q0 : Z) (backup_to : option string)
    (fs : filesystem) (content : list Byte.byte) :
  fs !! p = Some content ->
  in_target_range lo hi (size_kb content) = false ->
  image_open content = None ->
  exists r,
    resize_image_to_target_size p lo hi q0 backup_to fs = Some r /\
    (run_verdict r = ProcessingError \/ run_verdict r = BackupFailed) /\
    run_fs r !! p = Some content.
Proof.
  intros Hp Hin Himg. unfold resize_image_to_target_size. rewrite Hp, Hin.
  assert (Hproc : forall fs', fs' !! p = Some content ->
    process p lo hi q0 (size_kb content) fs' = Run ProcessingError fs' []).
  { intros fs' Hp'. unfold process. rewrite Hp', Himg. reflexivity. }
  destruct (backup_requested backup_to) as [d|].
  - destruct (create_backup p d fs) as [[backup_file fs1]|] eqn:B.
    + pose proof (create_backup_lookup _ _ _ _ _ B) as [Hsame _].
      rewrite Hp in Hsame. rewrite (Hproc _ Hsame).
      eexists. split; [reflexivity|]. simpl. auto.
    + eexists. split; [reflexivity|]. simpl. auto.
  - rewrite (Hproc _ Hp). eexists. split; [reflexivity|]. simpl. auto.
Qed.

Lemma process_files_spec (jpg_files : list string) (a : arguments)
    (backup_to : option string) (count : nat) (fs : filesystem) :
  Forall jpg_name jpg_files ->
  (forall p, In p jpg_files -> is_Some (fs !! p)) ->
  let b := process_files jpg_files a backup_to count fs in
  batch_crashed b = false /\
  map fst (batch_log b) = jpg_files /\
  success_count b = (count + succeeded_in (batch_log b))%nat /\
  (forall q, jpg_name q -> is_Some (fs !! q) -> is_Some (batch_fs b !! q)).
Proof.
  revert count fs. induction jpg_files as [|f rest IH]; intros count fs Hjpg Hex.
  - simpl. unfold succeeded_in. simpl. repeat split; auto; lia.
  - simpl.
    destruct (resize_returns f (min_size a) (max_size a) 85 backup_to fs)
      as [r Hr]; [apply Hex; left; reflexivity|].
    rewrite Hr. simpl.
    assert (Hkeep : forall q, jpg_name q -> is_Some (fs !! q) ->
                      is_Some (run_fs r !! q)).
    { intros q Hq. apply (resize_keeps_files _ _ _ _ _ _ _ _ Hr).
      apply jpg_name_not_temp. exact Hq. }
    apply Forall_cons in Hjpg. destruct Hjpg as [Hf Hrest].
    destruct (IH (if returned (run_verdict r) then S count else count) (run_fs r))
      as (Hc & Hl & Hs & Hk); [exact Hrest| |].
    { intros p Hp. apply Hkeep.
      - rewrite Forall_forall in Hrest. apply Hrest. apply list_elem_of_In. exact Hp.
      - apply Hex. right. exact Hp. }
    split; [exact Hc|]. split; [rewrite Hl; reflexivity|]. split.
    + rewrite Hs. unfold succeeded_in. simpl.
      destruct (returned (run_verdict r)); simpl; lia.
    + intros q Hq Hfs. apply Hk; [exact Hq|]. apply Hkeep; assumption.
Qed.

Lemma process_files_app (l1 l2 : list string) (a : arguments)
    (backup_to : option string) (count : nat) (fs : filesystem) :
  batch_crashed (process_files l1 a backup_to count fs) = false ->
  process_files (l1 ++ l2) a backup_to count fs =
    let b1 := process_files l1 a backup_to count fs in
    let b2 := process_files l2 a backup_to (success_count b1) (batch_fs b1) in
    Batch (success_count b2) (batch_log b1 ++ batch_log b2) (batch_fs b2)
          (batch_crashed b2).
Proof.
  revert count fs. induction l1 as [|f l1 IH]; intros count fs.
  - simpl. intros _. destruct (process_files l2 a backup_to count fs); reflexivity.
  - simpl. destruct (resize_image_to_target_size f _ _ 85 backup_to fs) as [r|];
      simpl; [|discriminate].
    intros Hc. rewrite IH by exact Hc. reflexivity.
Qed.

Lemma process_files_turns (jpg_files : list string) (a : arguments)
    (backup_to : option string) (count : nat) (fs : filesystem) :
  let b := process_files jpg_files a backup_to count fs in
  batch_crashed b = false ->
  processed_in_turn a backup_to jpg_files fs (batch_log b) (batch_fs b).
Proof.
  revert count fs. induction jpg_files as [|f rest IH]; intros count fs; simpl.
  - intros _. constructor.
  - destruct (resize_image_to_target_size f _ _ 85 backup_to fs) as [r|] eqn:Hr;
      simpl; [|discriminate].
    intros Hc. apply turn_next; [exact Hr|]. apply IH. exact Hc.
Qed.

Lemma turns_process_files (jpg_files : list string) (a : arguments)
    (backup_to : option string) (fs fs' : filesystem)
    (log : list (string * verdict)) :
  processed_in_turn a backup_to jpg_files fs log fs' ->
  forall count,
    process_files jpg_files a backup_to count fs =
      Batch (count + succeeded_in log) log fs' false.
Proof.
  induction 1 as [fs | f rest fs r log fs' Hr _ IH]; intros count; simpl.
  - unfold succeeded_in. simpl. f_equal. lia.
  - rewrite Hr, IH. simpl. f_equal. unfold succeeded_in. simpl.
    destruct (returned (run_verdict r)); simpl; lia.
Qed.

Lemma turns_names (jpg_files : list string) (a : arguments)
    (backup_to : option string) (fs fs' : filesystem)
    (log : list (string * verdict)) :
  processed_in_turn a backup_to jpg_files fs log fs' -> map fst log = jpg_files.
Proof.
  induction 1 as [fs | f rest fs r log fs' _ _ IH]; simpl; [reflexivity|].
  rewrite IH. reflexivity.
Qed.

Lemma succeeded_in_le (log : list (string * verdict)) :
  (succeeded_in log <= length log)%nat.
Proof. unfold succeeded_in. apply List.filter_length_le. Qed.

(** C8.  A batch in which the file [f] does not decode when its turn
    comes, after the files [before] have had theirs.  The call on [f]
    returns [False] with the verdict of a processing error (or of a failed
    backup) and leaves [f] as it was; every file of [after] then gets its
    call, in order, each on the file system the call before it left;
    [main] returns the summary of all files, with the verdicts of these
    calls, and [f] is not among the successes counted. *)
Theorem batch_continues_after_file_error (a : arguments)
    (before after : list string) (f : string) (fs fs1 : filesystem)
    (log_before : list (string * verdict)) (content : list Byte.byte) :
  dry_run a = false ->
  Forall jpg_name (before ++ f :: after) ->
  (forall p, In p (before ++ f :: after) -> is_Some (fs !! p)) ->
  let backup_to := if backup a then Some (backup_dir a) else None in
  processed_in_turn a backup_to before fs log_before fs1 ->
  fs1 !! f = Some content ->
  in_target_range (min_size a) (max_size a) (size_kb content) = false ->
  image_open content = None ->
  exists r log_after fs',
    resize_image_to_target_size f (min_size a) (max_size a) 85 backup_to fs1
      = Some r /\
    (run_verdict r = ProcessingError \/ run_verdict r = BackupFailed) /\
    returned (run_verdict r) = false /\
    run_fs r !! f = Some content /\
    processed_in_turn a backup_to after (run_fs r) log_after fs' /\
    map fst log_after = after /\
    main a (Some (before ++ f :: after)) fs =
      (Summary (succeeded_in log_before + succeeded_in log_after)
         (length (before ++ f :: after))
         (log_before ++ (f, run_verdict r) :: log_after), fs') /\
    (succeeded_in log_before + succeeded_in log_after
     < length (before ++ f :: after))%nat.
Proof.
  intros Hdry Hjpg Hex backup_to Hturn Hf Hin Himg.
  apply Forall_app in Hjpg. destruct Hjpg as [Hjb Hjf].
  apply Forall_cons in Hjf. destruct Hjf as [Hjf Hja].
  destruct (process_files_spec before a backup_to 0 fs Hjb) as (_ & _ & _ & Hk1).
  { intros p Hp. apply Hex. apply in_or_app. left. exact Hp. }
  pose proof (turns_process_files _ _ _ _ _ _ Hturn 0) as Hbefore.
  simpl in Hbefore. rewrite Hbefore in Hk1. simpl in Hk1.
  destruct (decode_error_fails f (min_size a) (max_size a) 85 backup_to
              fs1 content Hf Hin Himg) as (r & Hr & Hv & Hsame).
  assert (Hfalse : returned (run_verdict r) = false)
    by (destruct Hv as [-> | ->]; reflexivity).
  assert (Hkeep : forall q, jpg_name q -> is_Some (fs !! q) ->
                    is_Some (run_fs r !! q)).
  { intros q Hq Hfs. apply (resize_keeps_files _ _ _ _ _ _ _ _ Hr).
    - apply jpg_name_not_temp. exact Hq.
    - apply Hk1; assumption. }
  pose (count := succeeded_in log_before).
  destruct (process_files_spec after a backup_to count (run_fs r) Hja)
    as (Hc2 & Hl2 & _ & _).
  { intros p Hp. apply Hkeep.
    - rewrite Forall_forall in Hja. apply Hja. apply list_elem_of_In. exact Hp.
    - apply Hex. apply in_or_app. right. right. exact Hp. }
  pose proof (process_files_turns after a backup_to count (run_fs r) Hc2) as Hafter.
  pose proof (turns_process_files _ _ _ _ _ _ Hafter count) as Hrest.
  unfold count in *. clear count.
  set (rest := process_files after a backup_to (succeeded_in log_before)
                 (run_fs r)) in *.
  exists r, (batch_log rest), (batch_fs rest).
  split; [exact Hr|]. split; [exact Hv|]. split; [exact Hfalse|].
  split; [exact Hsame|]. split; [exact Hafter|]. split; [exact Hl2|].
  split.
  - unfold main. rewrite Hdry. fold backup_to.
    rewrite process_files_app by (rewrite Hbefore; reflexivity).
    rewrite Hbefore. simpl. rewrite Hr, Hfalse. fold rest.
    rewrite Hrest. simpl.
    destruct (before ++ f :: after) eqn:E; [destruct before; discriminate|].
    reflexivity.
  - pose proof (succeeded_in_le log_before) as H1.
    pose proof (succeeded_in_le (batch_log rest)) as H2.
    rewrite <- (turns_names _ _ _ _ _ _ Hturn) in *.
    rewrite <- Hl2. rewrite length_app. simpl. rewrite !length_map. lia.
Qed.

End Batch.

(** ** Runs on the small codec *)

Import Runs.

(** C2, at a failing input.  With targets of 1 to 2 KB, a 100 x 100 image
    is encoded 15 times, always above 2 KB; the last encoding, 72 x 72 at
    quality 60, is within 2.4 KB, yet the function returns [False] and the
    image file is as before: the encoding was removed at the end of its
    iteration. *)
Theorem exhaustion_discards_close_result :
  exists r st img encoded,
    resize_image_to_target_size (codec := Toy.toy_codec)
      "source/a.jpg" 1 2 85 None Runs.slow_fs = Some r /\
    run_verdict r = CouldNotAchieve /\
    returned (run_verdict r) = false /\
    length (run_trace r) = 15%nat /\
    last (run_trace r) = Some st /\
    st = SearchState 72 72 60 14 /\
    image_open (Codec := Toy.toy_codec) Runs.slow_file = Some img /\
    encode_at img st = Some encoded /\
    in_target_range 1 2 (size_kb encoded) = false /\
    (size_kb encoded <= inject_Z 2 * (12 # 10))%Q /\
    run_fs r !! "source/a.jpg"%string = Some Runs.slow_file.
Proof.
  eexists. eexists. eexists. eexists.
  split; [vm_compute; reflexivity|].
  split; [reflexivity|]. split; [reflexivity|]. split; [reflexivity|].
  split; [reflexivity|]. split; [reflexivity|].
  split; [vm_compute; reflexivity|].
  split; [vm_compute; reflexivity|].
  split; [vm_compute; reflexivity|].
  split; [vm_compute; discriminate|].
  vm_compute. reflexivity.
Qed.

(** C3, counterexample.  A 1 x 200 image stays above 2 KB down to quality
    60; the reduction then makes the width [int(1 * 0.9) = 0], and the
    seventh iteration runs with a width of 0. *)
Lemma zero_width_iteration :
  exists r st,
    resize_image_to_target_size (codec := Toy.toy_codec)
      "source/a.jpg" 1 2 85 None thin_fs = Some r /\
    In st (run_trace r) /\ attempts st = 6 /\ ~ 0 < width st.
Proof.
  exists (Run ProcessingError thin_fs
            [SearchState 1 200 85 0; SearchState 1 200 80 1;
             SearchState 1 200 75 2; SearchState 1 200 70 3;
             SearchState 1 200 65 4; SearchState 1 200 60 5;
             SearchState 0 180 70 6]),
    (SearchState 0 180 70 6).
  split; [vm_compute; reflexivity|].
  split; [simpl; tauto|]. split; [reflexivity|]. simpl. lia.
Qed.

(** C6, counterexample.  A file of 500 bytes, below the minimum of 1 KB,
    outside the directory [source], with a backup requested: the backup
    cannot be made and the function returns [False]. *)
Lemma below_min_backup_failure :
  exists r,
    resize_image_to_target_size (codec := Toy.toy_codec)
      "photos/a.jpg" 1 2 85 (Some "backup_originals"%string) photos_fs = Some r /\
    (size_kb small_file < inject_Z 1)%Q /\
    image_open (Codec := Toy.toy_codec) small_file <> None /\
    returned (run_verdict r) = false.
Proof.
  eexists. split; [vm_compute; reflexivity|].
  split; [reflexivity|]. split; [discriminate|]. reflexivity.
Qed.

(** ** Instances of the theorems *)

Lemma success_size_bound_witness :
  exists r final,
    resize_image_to_target_size (codec := Toy.toy_codec)
      "source/a.jpg" 1 2 85 None padded_fs = Some r /\
    run_fs r !! "source/a.jpg"%string = Some final /\
    (size_kb final <= inject_Z 2 * (12 # 10))%Q.
Proof.
  destruct (resize_image_to_target_size (codec := Toy.toy_codec)
              "source/a.jpg" 1 2 85 None padded_fs) as [r|] eqn:E;
    [|vm_compute in E; discriminate].
  assert (Hret : returned (run_verdict r) = true).
  { revert E. vm_compute. intros [= <-]. reflexivity. }
  destruct (success_size_bound (codec := Toy.toy_codec)
              "source/a.jpg" 1 2 85 None padded_fs padded_file r)
    as (final & Hfs & Hsize & _);
    [ vm_compute; reflexivity | lia | reflexivity | exact E | exact Hret | ].
  exists r, final. split; [reflexivity|]. split; [exact Hfs | exact Hsize].
Defined.

Lemma search_state_invariant_witness :
  exists r,
    resize_image_to_target_size (codec := Toy.toy_codec)
      "source/a.jpg" 1 2 85 None slow_fs = Some r /\
    Z.of_nat (length (run_trace r)) <= max_attempts /\
    Forall (fun st => 0 < width st /\ 0 < height st) (run_trace r).
Proof.
  destruct (resize_image_to_target_size (codec := Toy.toy_codec)
              "source/a.jpg" 1 2 85 None slow_fs) as [r|] eqn:E;
    [|vm_compute in E; discriminate].
  destruct (search_state_invariant (codec := Toy.toy_codec)
              "source/a.jpg" 1 2 85 None slow_fs r) as (Hlen & _ & Hpos);
    [ lia | exact E | ].
  exists r. split; [reflexivity|]. split; [exact Hlen|].
  assert (Hfirst : exists rest, run_trace r = SearchState 100 100 85 0 :: rest).
  { revert E. vm_compute. intros [= <-]. eexists. reflexivity. }
  destruct Hfirst as [rest Hfirst].
  apply (Hpos _ _ Hfirst); simpl; lia.
Defined.

Lemma loop_iteration_witness :
  (exists encoded,
     encode_at (codec := Toy.toy_codec) slow_image floor_state = Some encoded /\
     (inject_Z 2 < size_kb encoded)%Q /\
     search_loop (codec := Toy.toy_codec) 10 "source/a.jpg" 1 2 slow_image
       floor_state slow_fs =
     with_trace floor_state
       (search_loop (codec := Toy.toy_codec) 9 "source/a.jpg" 1 2 slow_image
          (SearchState 90 90 70 6)
          (delete (temp_path_of "source/a.jpg")
             (<[temp_path_of "source/a.jpg" := encoded]> slow_fs)))) /\
  (exists encoded,
     encode_at (codec := Toy.toy_codec) small_image ceiling_state = Some encoded /\
     (size_kb encoded < inject_Z 1)%Q /\
     lr_exit (search_loop (codec := Toy.toy_codec) 13 "source/a.jpg" 1 2
                small_image ceiling_state padded_fs) = Broke /\
     after_loop "source/a.jpg" 2
       (lr_fs (search_loop (codec := Toy.toy_codec) 13 "source/a.jpg" 1 2
                 small_image ceiling_state padded_fs)) =
     (CloseEnough,
      <["source/a.jpg"%string := encoded]>
        (delete (temp_path_of "source/a.jpg") padded_fs))).
Proof.
  split.
  - destruct (encode_at (codec := Toy.toy_codec) slow_image floor_state)
      as [encoded|] eqn:E; [|vm_compute in E; discriminate].
    assert (Hbig : (inject_Z 2 < size_kb encoded)%Q)
      by (revert E; vm_compute; intros [= <-]; reflexivity).
    exists encoded. split; [reflexivity|]. split; [exact Hbig|].
    destruct (loop_iteration (codec := Toy.toy_codec) 9 "source/a.jpg" 1 2
                slow_image floor_state slow_fs encoded)
      as (_ & _ & Hreduce & _);
      [ unfold max_attempts; simpl; lia | exact E | ].
    change (SearchState 90 90 70 6)
      with (SearchState (Z.quot (width floor_state * 9) 10)
              (Z.quot (height floor_state * 9) 10)
              (Z.min 85 (quality floor_state + 10)) (attempts floor_state + 1)).
    apply Hreduce; [exact Hbig | simpl; lia].
  - destruct (encode_at (codec := Toy.toy_codec) small_image ceiling_state)
      as [encoded|] eqn:E; [|vm_compute in E; discriminate].
    assert (Hsmall : (size_kb encoded < inject_Z 1)%Q)
      by (revert E; vm_compute; intros [= <-]; reflexivity).
    assert (Hmax : (size_kb encoded <= inject_Z 2)%Q)
      by (revert E; vm_compute; intros [= <-]; discriminate).
    exists encoded. split; [reflexivity|]. split; [exact Hsmall|].
    destruct (loop_iteration (codec := Toy.toy_codec) 12 "source/a.jpg" 1 2
                small_image ceiling_state padded_fs encoded)
      as (_ & _ & _ & _ & Hstop);
      [ unfold max_attempts; simpl; lia | exact E | ].
    destruct (Hstop Hsmall Hmax) as (Hexit & _ & _ & Hafter); [simpl; lia|].
    split; [exact Hexit | exact Hafter].
Defined.

Lemma in_range_is_noop_witness :
  exists r,
    resize_image_to_target_size (codec := Toy.toy_codec)
      "source/a.jpg" 1 2 85 None fitting_fs = Some r /\
    returned (run_verdict r) = true /\
    run_fs r = fitting_fs /\
    run_fs r !! "source/a.jpg"%string = Some fitting_file /\
    run_trace r = [].
Proof.
  apply (in_range_is_noop (codec := Toy.toy_codec)
           "source/a.jpg" 1 2 85 None fitting_fs fitting_file);
    vm_compute; reflexivity.
Defined.

Lemma below_min_is_kept_witness :
  exists r,
    resize_image_to_target_size (codec := Toy.toy_codec)
      "photos/a.jpg" 1 2 85 None photos_fs = Some r /\
    run_fs r !! "photos/a.jpg"%string = Some small_file /\
    run_trace r = [] /\
    run_verdict r = KeptOriginal /\ run_fs r = photos_fs.
Proof.
  destruct (below_min_is_kept (codec := Toy.toy_codec)
              "photos/a.jpg" 1 2 85 None photos_fs small_file)
    as (r & Hr & Hfs & Htr & Hv);
    [ vm_compute; reflexivity | reflexivity | ].
  exists r. split; [exact Hr|]. split; [exact Hfs|]. split; [exact Htr|].
  exact Hv.
Defined.

Lemma first_iteration_dimensions_witness :
  exists r st0 rest,
    resize_image_to_target_size (codec := Toy.toy_codec)
      "source/a.jpg" 1 2 85 None large_fs = Some r /\
    run_trace r = st0 :: rest /\
    (inject_Z (2 * 3) < size_kb large_file)%Q /\
    Binary64.int_of_float
      (100 * PrimFloat.sqrt (2048 / (9000 / 1024 * 1024)))%float
    = Some (width st0) /\
    width st0 = 47 /\ height st0 = 47.
Proof.
  destruct (resize_image_to_target_size (codec := Toy.toy_codec)
              "source/a.jpg" 1 2 85 None large_fs) as [r|] eqn:E;
    [|vm_compute in E; discriminate].
  assert (Htr : exists rest, run_trace r = SearchState 47 47 85 0 :: rest).
  { revert E. vm_compute. intros [= <-]. eexists. reflexivity. }
  destruct Htr as (rest & Htr).
  destruct (first_iteration_dimensions (codec := Toy.toy_codec)
              "source/a.jpg" 1 2 85 None large_fs large_file
              (Toy.ToyImage 100 100 100) r (SearchState 47 47 85 0) rest)
    as (_ & _ & Hbig & _);
    [ vm_compute; reflexivity | reflexivity | exact E | exact Htr | ].
  destruct Hbig as (file_size & numerator & w & h & Hs & Hn & Hw & _ & Hsw & _);
    [reflexivity|].
  vm_compute in Hs. injection Hs as <-.
  vm_compute in Hn. injection Hn as <-.
  vm_compute in Hw. injection Hw as <-.
  exists r, (SearchState 47 47 85 0), rest.
  split; [reflexivity|]. split; [exact Htr|]. split; [reflexivity|].
  split; [exact Hsw|]. split; reflexivity.
Defined.

(** C7, counterexample.  With the exact square root, as the
    specification has it: a 65 x 130 image in a file of 8450 bytes and a
    maximum of 2 KB.  The quotient of the maximum by the size is the
    square of 32/65, so that the scaled dimensions are 32 x 64 exactly;
    the loop starts at 31 x 63, the integer parts of the rounded
    products. *)
Lemma prescale_below_exact_scale :
  exists r rest,
    resize_image_to_target_size (codec := Toy.toy_codec)
      "source/a.jpg" 1 2 85 None slanted_fs = Some r /\
    run_trace r = SearchState 31 63 85 0 :: rest /\
    Toy.toy_open slanted_file = Some (Toy.ToyImage 65 130 100) /\
    (inject_Z (2 * 3) < size_kb slanted_file)%Q /\
    (inject_Z 2 / size_kb slanted_file == (32 # 65) * (32 # 65))%Q /\
    (inject_Z 65 * (32 # 65) == inject_Z 32)%Q /\
    (inject_Z 130 * (32 # 65) == inject_Z 64)%Q.
Proof.
  destruct (resize_image_to_target_size (codec := Toy.toy_codec)
              "source/a.jpg" 1 2 85 None slanted_fs) as [r|] eqn:E;
    [|vm_compute in E; discriminate].
  assert (Htr : exists rest, run_trace r = SearchState 31 63 85 0 :: rest).
  { revert E. vm_compute. intros [= <-]. eexists. reflexivity. }
  destruct Htr as (rest & Htr).
  exists r, rest. split; [reflexivity|]. split; [exact Htr|].
  split; [reflexivity|]. split; [reflexivity|].
  split; [|split]; vm_compute; reflexivity.
Qed.

(** The same on a photo: 3900 x 2925 pixels in 3115008 bytes, with the
    default maximum of 800 KB.  The exact scale is 20/39 and the exact
    dimensions are 2000 x 1500; lines 79-81 give 1999 x 1499. *)
Lemma prescale_of_a_photo :
  initial_state (codec := Toy.toy_codec) 800 85 (3115008 # 1024) photo_image
  = Some (SearchState 1999 1499 85 0) /\
  (inject_Z 800 / (3115008 # 1024) == (20 # 39) * (20 # 39))%Q /\
  (inject_Z 3900 * (20 # 39) == inject_Z 2000)%Q /\
  (inject_Z 2925 * (20 # 39) == inject_Z 1500)%Q.
Proof. repeat split; vm_compute; reflexivity. Qed.

Lemma dry_run_modifies_nothing_witness :
  snd (main (codec := Toy.toy_codec) (small_targets true)
         (Some ["source/a.jpg"; "source/bad.jpg"; "source/c.jpg"]%string)
         batch_files) = batch_files.
Proof.
  apply (dry_run_modifies_nothing (codec := Toy.toy_codec) (small_targets true)
           (Some ["source/a.jpg"; "source/bad.jpg"; "source/c.jpg"]%string)
           batch_files).
  reflexivity.
Defined.

Lemma failure_leaves_image_untouched_witness :
  exists r,
    resize_image_to_target_size (codec := Toy.toy_codec)
      "source/a.jpg" 1 2 85 None slow_fs = Some r /\
    returned (run_verdict r) = false /\
    run_fs r !! "source/a.jpg"%string = slow_fs !! "source/a.jpg"%string.
Proof.
  destruct (resize_image_to_target_size (codec := Toy.toy_codec)
              "source/a.jpg" 1 2 85 None slow_fs) as [r|] eqn:E;
    [|vm_compute in E; discriminate].
  assert (Hret : returned (run_verdict r) = false).
  { revert E. vm_compute. intros [= <-]. reflexivity. }
  exists r. split; [reflexivity|]. split; [exact Hret|].
  exact (failure_leaves_image_untouched (codec := Toy.toy_codec)
           "source/a.jpg" 1 2 85 None slow_fs r E Hret).
Defined.

Lemma batch_continues_after_file_error_witness :
  exists ra r log_after fs',
    resize_image_to_target_size (codec := Toy.toy_codec)
      "source/a.jpg" 1 2 85 None batch_files = Some ra /\
    run_verdict ra = CloseEnough /\
    resize_image_to_target_size (codec := Toy.toy_codec)
      "source/bad.jpg" 1 2 85 None (run_fs ra) = Some r /\
    run_verdict r = ProcessingError /\
    processed_in_turn (codec := Toy.toy_codec) (small_targets false) None
      ["source/c.jpg"%string] (run_fs r) log_after fs' /\
    log_after = [("source/c.jpg"%string, AlreadyInRange)] /\
    main (codec := Toy.toy_codec) (small_targets false)
      (Some ["source/a.jpg"; "source/bad.jpg"; "source/c.jpg"]%string)
      batch_files =
      (Summary 2 3 [("source/a.jpg"%string, CloseEnough);
                    ("source/bad.jpg"%string, ProcessingError);
                    ("source/c.jpg"%string, AlreadyInRange)], fs').
Proof.
  destruct (resize_image_to_target_size (codec := Toy.toy_codec)
              "source/a.jpg" 1 2 85 None batch_files) as [ra|] eqn:Ea;
    [|vm_compute in Ea; discriminate].
  assert (Hva : run_verdict ra = CloseEnough)
    by (revert Ea; vm_compute; intros [= <-]; reflexivity).
  assert (Hbad : run_fs ra !! "source/bad.jpg"%string = Some [])
    by (revert Ea; vm_compute; intros [= <-]; reflexivity).
  assert (Hc : run_fs ra !! "source/c.jpg"%string = Some fitting_file)
    by (revert Ea; vm_compute; intros [= <-]; reflexivity).
  destruct (batch_continues_after_file_error (codec := Toy.toy_codec)
              (small_targets false) ["source/a.jpg"%string]
              ["source/c.jpg"%string] "source/bad.jpg" batch_files (run_fs ra)
              [("source/a.jpg"%string, run_verdict ra)] [])
    as (r & log_after & fs' & Hr & Hv & _ & Hsame & Hafter & _ & Hmain & _).
  - reflexivity.
  - repeat constructor.
    + exists "source/a"%string. left. reflexivity.
    + exists "source/bad"%string. left. reflexivity.
    + exists "source/c"%string. left. reflexivity.
  - intros p [<- | [<- | [<- | []]]]; vm_compute; eauto.
  - apply turn_next with (r := ra); [exact Ea | constructor].
  - exact Hbad.
  - reflexivity.
  - reflexivity.
  - assert (Ev : run_verdict r = ProcessingError).
    { revert Hr. unfold resize_image_to_target_size, process.
      rewrite !Hbad. intros [= <-]. reflexivity. }
    assert (Efs : run_fs r = run_fs ra).
    { revert Hr. unfold resize_image_to_target_size, process.
      rewrite !Hbad. intros [= <-]. reflexivity. }
    assert (El : log_after = [("source/c.jpg"%string, AlreadyInRange)]).
    { inversion Hafter as [|? ? ? r' ? ? Hc' Hnil]; subst.
      inversion Hnil; subst.
      revert Hc'. unfold resize_image_to_target_size. rewrite Efs, Hc.
      intros [= <-]. reflexivity. }
    exists ra, r, log_after, fs'. split; [reflexivity|].
    split; [exact Hva|]. split; [exact Hr|]. split; [exact Ev|].
    split; [exact Hafter|]. split; [exact El|].
    cbn [app] in Hmain. rewrite Hmain, El, Ev, Hva. reflexivity.
Defined.

(** * Further properties of the program *)

(** ** Paths and backups, lines 18-29 *)

Lemma last_char_jpg (p : string) :
  jpg_name p -> last_char p = Some "g"%char \/ last_char p = Some "G"%char.
Proof.
  intros [stem [-> | ->]]; rewrite last_char_app by discriminate; auto.
Qed.

Lemma backup_not_temp (p d bf : string) (fs fs1 : filesystem) :
  jpg_name p -> create_backup p d fs = Some (bf, fs1) -> bf <> temp_path_of p.
Proof.
  intros Hjpg B. apply create_backup_inv in B.
  destruct B as (rel & content & Hp & Hbf & _).
  assert (Hrel : rel <> EmptyString).
  { intros ->. subst p. destruct (last_char_jpg _ Hjpg); discriminate. }
  intros Heq. apply (f_equal last_char) in Heq.
  unfold temp_path_of in Heq. rewrite (last_char_app p) in Heq by discriminate.
  rewrite Hbf in Heq. unfold backup_file_path in Heq.
  rewrite (last_char_app _ rel Hrel) in Heq.
  rewrite <- (last_char_app "source/" rel Hrel), <- Hp in Heq.
  destruct (last_char_jpg _ Hjpg) as [H | H]; rewrite H in Heq; discriminate.
Qed.

(** The backup path is the one [pathlib] builds, whatever the spelling of
    the directory. *)
Lemma backup_file_path_examples :
  backup_file_path "backup_originals" "sub/a.jpg" = "backup_originals/sub/a.jpg"%string /\
  backup_file_path "bk/" "a.jpg" = "bk/a.jpg"%string /\
  backup_file_path "./bk//old" "a.jpg" = "bk/old/a.jpg"%string /\
  backup_file_path "" "a.jpg" = "a.jpg"%string /\
  backup_file_path "." "a.jpg" = "a.jpg"%string /\
  backup_file_path "/" "a.jpg" = "/a.jpg"%string /\
  backup_file_path "source/" "a.jpg" = "source/a.jpg"%string /\
  backup_file_path "bk/../source" "a.jpg" = "source/a.jpg"%string.
Proof. repeat split. Qed.

(** Copying an image onto itself is refused, however the directory
    [source] is spelled; a directory that is a regular file fails
    [mkdir]. *)
Lemma create_backup_refusals :
  create_backup "source/a.jpg" "source" padded_fs = None /\
  create_backup "source/a.jpg" "source/" padded_fs = None /\
  create_backup "source/a.jpg" "./source" padded_fs = None /\
  create_backup "source/a.jpg" "bk/../source" padded_fs = None /\
  create_backup "source/a.jpg" "source/sub/a.jpg" two_images = None /\
  create_backup "source/a.jpg" "source/sub/a.jpg/old" two_images = None.
Proof. repeat split; vm_compute; reflexivity. Qed.

(** X1.  Two images never share a backup file.  When the backups of two
    different images into the same directory are made one after the
    other, the two copies are different files, and after the second
    backup the first copy still holds the content of the first image and
    the second copy that of the second. *)
Theorem backups_do_not_collide (image_path1 image_path2 backup_to : string)
    (backup_file1 backup_file2 : string) (fs fs1 fs2 : filesystem) :
  image_path1 <> image_path2 ->
  create_backup image_path1 backup_to fs = Some (backup_file1, fs1) ->
  create_backup image_path2 backup_to fs1 = Some (backup_file2, fs2) ->
  backup_file1 <> backup_file2 /\
  is_Some (fs !! image_path1) /\
  fs2 !! backup_file1 = fs !! image_path1 /\
  fs2 !! backup_file2 = fs1 !! image_path2.
Proof.
  intros Hne B1 B2.
  destruct (create_backup_inv _ _ _ _ _ B1)
    as (rel1 & c1 & Hp1 & Hb1 & _ & Hc1 & Hfs1 & _).
  destruct (create_backup_inv _ _ _ _ _ B2)
    as (rel2 & c2 & Hp2 & Hb2 & _ & Hc2 & Hfs2 & _).
  assert (Hbf : backup_file1 <> backup_file2).
  { rewrite Hb1, Hb2. unfold backup_file_path. intros Heq.
    apply String.app_inj in Heq. apply Hne. congruence. }
  split; [exact Hbf|]. split; [rewrite Hc1; eauto|].
  rewrite Hfs2. split.
  - rewrite lookup_insert_ne by (apply not_eq_sym; exact Hbf).
    rewrite Hfs1, lookup_insert_eq. symmetry. exact Hc1.
  - rewrite lookup_insert_eq. symmetry. exact Hc2.
Qed.

Lemma backups_do_not_collide_witness :
  exists fs1 fs2,
    create_backup "source/a.jpg" "backup_originals" two_images =
      Some ("backup_originals/a.jpg"%string, fs1) /\
    create_backup "source/sub/a.jpg" "backup_originals" fs1 =
      Some ("backup_originals/sub/a.jpg"%string, fs2) /\
    fs2 !! "backup_originals/a.jpg"%string = Some padded_file /\
    fs2 !! "backup_originals/sub/a.jpg"%string = Some fitting_file.
Proof.
  set (fs1 := <["backup_originals/a.jpg"%string := padded_file]> two_images).
  set (fs2 := <["backup_originals/sub/a.jpg"%string := fitting_file]> fs1).
  assert (B1 : create_backup "source/a.jpg" "backup_originals" two_images =
                 Some ("backup_originals/a.jpg"%string, fs1))
    by (vm_compute; reflexivity).
  assert (B2 : create_backup "source/sub/a.jpg" "backup_originals" fs1 =
                 Some ("backup_originals/sub/a.jpg"%string, fs2))
    by (vm_compute; reflexivity).
  destruct (backups_do_not_collide "source/a.jpg" "source/sub/a.jpg"
              "backup_originals" "backup_originals/a.jpg"
              "backup_originals/sub/a.jpg" two_images fs1 fs2)
    as (_ & _ & H1 & H2); [discriminate | exact B1 | exact B2 |].
  exists fs1, fs2. split; [exact B1|]. split; [exact B2|].
  split; [rewrite H1 | rewrite H2]; vm_compute; reflexivity.
Defined.

Section Further.
Context `{codec : Codec}.

(** X2.  With a backup requested, a file that is not under [source/] and
    needs resizing is never processed: the function returns [False] with
    the verdict of a failed backup and changes nothing. *)
Theorem backup_outside_source_fails (image_path backup_to : string)
    (target_min_kb target_max_kb quality_start : Z)
    (fs : filesystem) (content : list Byte.byte) :
  fs !! image_path = Some content ->
  in_target_range target_min_kb target_max_kb (size_kb content) = false ->
  backup_to <> EmptyString ->
  (forall rel_path, image_path <> ("source/" +:+ rel_path)%string) ->
  resize_image_to_target_size image_path target_min_kb target_max_kb
    quality_start (Some backup_to) fs = Some (Run BackupFailed fs []).
Proof.
  intros Hp Hin Hd Hout. unfold resize_image_to_target_size. rewrite Hp, Hin.
  simpl. case_decide; [contradiction|].
  destruct (create_backup image_path backup_to fs) as [[bf fs1]|] eqn:B;
    [|reflexivity].
  apply create_backup_inv in B. destruct B as (rel & _ & Hrel & _).
  exfalso. exact (Hout rel Hrel).
Qed.

End Further.

Lemma backup_outside_source_fails_witness :
  resize_image_to_target_size (codec := Toy.toy_codec) "photos/a.jpg" 1 2 85
    (Some "backup_originals"%string) photos_fs = Some (Run BackupFailed photos_fs []).
Proof.
  apply (backup_outside_source_fails (codec := Toy.toy_codec)
           "photos/a.jpg" "backup_originals" 1 2 85 photos_fs small_file).
  - vm_compute. reflexivity.
  - vm_compute. reflexivity.
  - discriminate.
  - intros rel H. discriminate.
Defined.

(** ** What a call leaves in the file system *)

Section Effects.
Context `{codec : Codec}.

Lemma search_loop_replaced_temp (p : string) (lo hi : Z) (img : image)
    (fuel : nat) (st : search_state) (fs : filesystem) :
  lr_exit (search_loop fuel p lo hi img st fs) = Replaced ->
  lr_fs (search_loop fuel p lo hi img st fs) !! temp_path_of p = None.
Proof.
  revert st fs. induction fuel as [|fuel IH]; intros st fs.
  - simpl. destruct (attempts st <? max_attempts); discriminate.
  - simpl. destruct (attempts st <? max_attempts); simpl; [|discriminate].
    destruct (encode_at img st) as [encoded|]; simpl; [|discriminate].
    destruct (adjust lo hi (size_kb encoded) st) as [|st'|]; simpl.
    + rewrite os_replace_fresh. simpl. intros _.
      rewrite lookup_insert_ne by (apply not_eq_sym, temp_path_neq).
      apply lookup_delete_eq.
    + apply IH.
    + discriminate.
Qed.

Lemma process_ending (p : string) (lo hi q0 : Z) (fs : filesystem)
    (content : list Byte.byte) :
  fs !! p = Some content ->
  ending p lo hi q0 fs (process p lo hi q0 (size_kb content) fs).
Proof.
  intros Hp. unfold process. rewrite Hp.
  destruct (image_open content) as [img|] eqn:Himg;
    [|apply EndedEarly; simpl; auto; discriminate].
  destruct (Qlt_bool _ _); [apply EndedEarly; simpl; auto; discriminate|].
  destruct (initial_state hi q0 (size_kb content) img) as [st0|] eqn:Hst;
    [|apply EndedEarly; simpl; auto; discriminate].
  set (lr := search_loop _ p lo hi img st0 fs).
  apply (EndedInLoop _ _ _ _ _ _ content img st0 lr Hp Himg Hst eq_refl).
  - destruct (lr_exit lr); simpl; try reflexivity;
      destruct (after_loop p hi (lr_fs lr)); reflexivity.
  - destruct (lr_exit lr); simpl; auto;
      destruct (after_loop p hi (lr_fs lr)); reflexivity.
Qed.

(** Every call on an existing file ends early, on the file system it was
    given or on that file system with the backup copy added, or in the
    loop run on it. *)
Lemma resize_ending (p : string) (lo hi q0 : Z) (backup_to : option string)
    (fs : filesystem) (r : run) :
  resize_image_to_target_size p lo hi q0 backup_to fs = Some r ->
  ending p lo hi q0 fs r \/
  exists d bf fs1,
    backup_requested backup_to = Some d /\
    create_backup p d fs = Some (bf, fs1) /\ ending p lo hi q0 fs1 r.
Proof.
  unfold resize_image_to_target_size.
  destruct (fs !! p) as [content|] eqn:Hp; [|discriminate].
  destruct (in_target_range _ _ _);
    [intros [= <-]; left; apply EndedEarly; simpl; auto; discriminate|].
  destruct (backup_requested backup_to) as [d|].
  - destruct (create_backup p d fs) as [[bf fs1]|] eqn:B.
    + intros [= <-]. right. exists d, bf, fs1. split; [reflexivity|].
      split; [exact B|]. apply process_ending.
      rewrite (proj1 (create_backup_lookup _ _ _ _ _ B)). exact Hp.
    + intros [= <-]. left. apply EndedEarly; simpl; auto; discriminate.
  - intros [= <-]. left. apply process_ending. exact Hp.
Qed.

Lemma ending_resized (p : string) (lo hi q0 : Z) (fs : filesystem) (r : run) :
  ending p lo hi q0 fs r -> run_verdict r = Resized ->
  exists final, run_fs r !! p = Some final /\
                in_target_range lo hi (size_kb final) = true.
Proof.
  intros [_ _ H _ _ | content img st0 lr Hp Himg Hst -> Htr Hexit] Hv;
    [contradiction|].
  set (lr := search_loop _ p lo hi img st0 fs) in *.
  destruct (lr_exit lr) eqn:E.
  - destruct Hexit as [_ ->].
    destruct (search_loop_replaced p lo hi img _ st0 fs E) as (final & H1 & _ & H2).
    eauto.
  - exfalso. destruct (after_loop p hi (lr_fs lr)) as [v fs'] eqn:A.
    injection Hexit as Hv' _. rewrite Hv in Hv'. subst v.
    unfold after_loop in A. destruct (lr_fs lr !! temp_path_of p); [|discriminate].
    destruct (Qle_bool _ _); [|discriminate].
    destruct (os_replace _ _ _); discriminate.
  - exfalso. destruct (after_loop p hi (lr_fs lr)) as [v fs'] eqn:A.
    injection Hexit as Hv' _. rewrite Hv in Hv'. subst v.
    unfold after_loop in A. destruct (lr_fs lr !! temp_path_of p); [|discriminate].
    destruct (Qle_bool _ _); [|discriminate].
    destruct (os_replace _ _ _); discriminate.
  - destruct Hexit as [Hv' _]. congruence.
  - destruct Hexit as [Hv' _]. congruence.
Qed.

End Effects.

Section Effects2.
Context `{codec : Codec}.

Lemma search_loop_broke_last (p : string) (lo hi : Z) (img : image)
    (fuel : nat) (st : search_state) (fs : filesystem) :
  lr_exit (search_loop fuel p lo hi img st fs) = Broke ->
  In (lr_state (search_loop fuel p lo hi img st fs))
     (lr_trace (search_loop fuel p lo hi img st fs)).
Proof.
  revert st fs. induction fuel as [|fuel IH]; intros st fs.
  - simpl. destruct (attempts st <? max_attempts); discriminate.
  - simpl. destruct (attempts st <? max_attempts); simpl; [|discriminate].
    destruct (encode_at img st) as [encoded|]; simpl; [|discriminate].
    destruct (adjust lo hi (size_kb encoded) st) as [|st'|]; simpl.
    + rewrite os_replace_fresh. discriminate.
    + intros E. right. apply IH. exact E.
    + intros _. left. reflexivity.
Qed.

(** Dimensions only go down. *)
Lemma search_loop_dims (p : string) (lo hi : Z) (img : image)
    (fuel : nat) (st : search_state) (fs : filesystem) :
  0 <= width st -> 0 <= height st ->
  Forall (fun s => width s <= width st /\ height s <= height st)
    (lr_trace (search_loop fuel p lo hi img st fs)).
Proof.
  revert st fs. induction fuel as [|fuel IH]; intros st fs Hw Hh.
  - simpl. destruct (attempts st <? max_attempts); constructor.
  - simpl. destruct (attempts st <? max_attempts); simpl; [|constructor].
    destruct (encode_at img st) as [encoded|]; simpl;
      [|repeat constructor; lia].
    destruct (adjust lo hi (size_kb encoded) st) as [|st'|] eqn:A; simpl.
    + rewrite os_replace_fresh. repeat constructor; lia.
    + constructor; [lia|].
      destruct (adjust_Next _ _ _ _ _ A) as (_ & _ & Hw' & Hh').
      specialize (Hw' Hw). specialize (Hh' Hh).
      eapply Forall_impl; [apply IH; lia|]. simpl. intros s [? ?]. lia.
    + repeat constructor; lia.
Qed.

(** The qualities reached from the default 85: multiples of 5 from 60 to
    95. *)
Lemma search_loop_quality (p : string) (lo hi : Z) (img : image)
    (fuel : nat) (st : search_state) (fs : filesystem) :
  60 <= quality st <= 95 -> (5 | quality st) ->
  Forall (fun s => 60 <= quality s <= 95 /\ (5 | quality s))
    (lr_trace (search_loop fuel p lo hi img st fs)).
Proof.
  revert st fs. induction fuel as [|fuel IH]; intros st fs Hq Hd.
  - simpl. destruct (attempts st <? max_attempts); constructor.
  - simpl. destruct (attempts st <? max_attempts); simpl; [|constructor].
    destruct (encode_at img st) as [encoded|]; simpl;
      [|constructor; [split; assumption | constructor]].
    destruct (adjust lo hi (size_kb encoded) st) as [|st'|] eqn:A; simpl.
    + rewrite os_replace_fresh. constructor; [split; assumption | constructor].
    + constructor; [split; assumption|].
      assert (H : 60 <= quality st' <= 95 /\ (5 | quality st')).
      { destruct Hd as [k Hk]. revert A. unfold adjust.
        destruct (in_target_range _ _ _); [discriminate|].
        destruct (Qlt_bool _ _).
        - destruct (60 <? quality st) eqn:Q; intros [= <-]; simpl;
            [apply Z.ltb_lt in Q | apply Z.ltb_ge in Q].
          + split; [lia|]. exists (k - 1). lia.
          + assert (quality st = 60) by lia.
            split; [lia|]. exists 14. lia.
        - destruct (quality st <? 95) eqn:Q; [|discriminate].
          intros [= <-]; simpl. apply Z.ltb_lt in Q.
          split; [lia|]. exists (k + 1). lia. }
      apply IH; apply H.
    + constructor; [split; assumption | constructor].
Qed.

(** X3.  After a call that resized the image, the file is within the
    target range, and a second call with the same targets returns at once
    with the verdict "already in range", changing nothing. *)
Theorem second_call_is_noop (image_path : string)
    (target_min_kb target_max_kb quality_start quality_start' : Z)
    (backup_to backup_to' : option string) (fs : filesystem) (r : run) :
  resize_image_to_target_size image_path target_min_kb target_max_kb
    quality_start backup_to fs = Some r ->
  run_verdict r = Resized ->
  resize_image_to_target_size image_path target_min_kb target_max_kb
    quality_start' backup_to' (run_fs r) = Some (Run AlreadyInRange (run_fs r) []).
Proof.
  intros Hr Hv.
  assert (H : exists final, run_fs r !! image_path = Some final /\
            in_target_range target_min_kb target_max_kb (size_kb final) = true).
  { destruct (resize_ending _ _ _ _ _ _ _ Hr) as [E | (d & bf & fs1 & _ & _ & E)];
      exact (ending_resized _ _ _ _ _ _ E Hv). }
  destruct H as (final & Hfs & Hin).
  unfold resize_image_to_target_size. rewrite Hfs, Hin. reflexivity.
Qed.

Lemma after_loop_temp_gone (p : string) (hi : Z) (fs : filesystem) :
  fst (after_loop p hi fs) <> ProcessingError ->
  snd (after_loop p hi fs) !! temp_path_of p = None.
Proof.
  destruct (fs !! temp_path_of p) as [last|] eqn:E.
  - rewrite (after_loop_temp _ _ _ _ E). destruct (Qle_bool _ _); simpl; intros _.
    + rewrite lookup_insert_ne by (apply not_eq_sym, temp_path_neq).
      apply lookup_delete_eq.
    + apply lookup_delete_eq.
  - rewrite (after_loop_no_temp _ _ _ E). intros _. exact E.
Qed.

Lemma ending_no_temp (p : string) (lo hi q0 : Z) (fs : filesystem) (r : run) :
  ending p lo hi q0 fs r ->
  run_verdict r = Resized \/ run_verdict r = CloseEnough \/
  run_verdict r = CouldNotAchieve ->
  run_fs r !! temp_path_of p = None.
Proof.
  intros [_ _ H1 H2 H3 | content img st0 lr Hp Himg Hst -> Htr Hexit] Hv;
    [tauto|].
  set (lr := search_loop _ p lo hi img st0 fs) in *.
  assert (Hafter : (run_verdict r, run_fs r) = after_loop p hi (lr_fs lr) ->
            run_fs r !! temp_path_of p = None).
  { intros H. pose proof (after_loop_temp_gone p hi (lr_fs lr)) as G.
    rewrite <- H in G. simpl in G. apply G.
    destruct Hv as [-> | [-> | ->]]; discriminate. }
  destruct (lr_exit lr) eqn:E; try (apply Hafter; exact Hexit).
  - destruct Hexit as [_ ->]. apply search_loop_replaced_temp. exact E.
  - destruct Hexit as [Hv' _]. rewrite Hv' in Hv.
    destruct Hv as [? | [? | ?]]; discriminate.
  - destruct Hexit as [Hv' _]. rewrite Hv' in Hv.
    destruct Hv as [? | [? | ?]]; discriminate.
Qed.

(** X4.  A call that ends with one of the verdicts of the search (resized,
    close enough, could not achieve) leaves no temporary file behind. *)
Theorem no_temp_file_left (image_path : string)
    (target_min_kb target_max_kb quality_start : Z)
    (backup_to : option string) (fs : filesystem) (r : run) :
  resize_image_to_target_size image_path target_min_kb target_max_kb
    quality_start backup_to fs = Some r ->
  run_verdict r = Resized \/ run_verdict r = CloseEnough \/
  run_verdict r = CouldNotAchieve ->
  run_fs r !! temp_path_of image_path = None.
Proof.
  intros Hr Hv.
  destruct (resize_ending _ _ _ _ _ _ _ Hr) as [E | (d & bf & fs1 & _ & _ & E)];
    exact (ending_no_temp _ _ _ _ _ _ E Hv).
Qed.

Lemma ending_frame (p q : string) (lo hi q0 : Z) (fs : filesystem) (r : run) :
  ending p lo hi q0 fs r -> q <> p -> q <> temp_path_of p ->
  run_fs r !! q = fs !! q.
Proof.
  intros [-> _ _ _ _ | content img st0 lr Hp Himg Hst -> Htr Hexit] Hq Ht;
    [reflexivity|].
  set (lr := search_loop _ p lo hi img st0 fs) in *.
  assert (Hlr : lr_fs lr !! q = fs !! q) by (apply search_loop_frame; assumption).
  assert (Hafter : (run_verdict r, run_fs r) = after_loop p hi (lr_fs lr) ->
            run_fs r !! q = fs !! q).
  { intros H. pose proof (after_loop_frame p q hi (lr_fs lr) Hq Ht) as G.
    rewrite <- H in G. simpl in G. congruence. }
  destruct (lr_exit lr); try (apply Hafter; exact Hexit);
    destruct Hexit as [_ ->]; exact Hlr.
Qed.

(** X5.  A call touches at most three files: the image, its temporary
    file and the backup copy, which is the file [backup_dir / rel_path]
    denotes, however the directory is spelled.  Every other file is as it
    was. *)
Theorem other_files_untouched (image_path q : string)
    (target_min_kb target_max_kb quality_start : Z)
    (backup_to : option string) (fs : filesystem) (r : run) :
  resize_image_to_target_size image_path target_min_kb target_max_kb
    quality_start backup_to fs = Some r ->
  q <> image_path -> q <> temp_path_of image_path ->
  (forall d rel_path, backup_requested backup_to = Some d ->
     relative_to_source image_path = Some rel_path ->
     q <> backup_file_path d rel_path) ->
  run_fs r !! q = fs !! q.
Proof.
  intros Hr Hq Ht Hb.
  destruct (resize_ending _ _ _ _ _ _ _ Hr) as [E | (d & bf & fs1 & Hd & B & E)].
  - exact (ending_frame _ _ _ _ _ _ _ E Hq Ht).
  - rewrite (ending_frame _ _ _ _ _ _ _ E Hq Ht).
    destruct (create_backup_inv _ _ _ _ _ B)
      as (rel & content & Hp & Hbf & _ & _ & -> & _).
    apply lookup_insert_ne. rewrite Hbf. apply not_eq_sym. apply (Hb d rel Hd).
    unfold relative_to_source. apply strip_prefix_spec. exact Hp.
Qed.

(** X6.  When the image of a [*.jpg] path needs resizing and the requested
    backup is made, the backup file holds the original content after the
    call, whatever the call does to the image. *)
Theorem backup_holds_original (image_path d backup_file : string)
    (target_min_kb target_max_kb quality_start : Z)
    (backup_to : option string) (fs fs1 : filesystem)
    (content : list Byte.byte) (r : run) :
  jpg_name image_path ->
  fs !! image_path = Some content ->
  in_target_range target_min_kb target_max_kb (size_kb content) = false ->
  backup_requested backup_to = Some d ->
  create_backup image_path d fs = Some (backup_file, fs1) ->
  resize_image_to_target_size image_path target_min_kb target_max_kb
    quality_start backup_to fs = Some r ->
  run_fs r !! backup_file = Some content.
Proof.
  intros Hjpg Hp Hin Hd B Hr.
  pose proof (backup_not_temp _ _ _ _ _ Hjpg B) as Ht.
  destruct (create_backup_inv _ _ _ _ _ B)
    as (rel & content' & Hpath & Hbf & Hne & Hfs & Hfs1 & _).
  assert (content' = content) by congruence. subst content'.
  assert (Hcopy : fs1 !! backup_file = Some content)
    by (rewrite Hfs1; apply lookup_insert_eq).
  assert (Himg : fs1 !! image_path = Some content)
    by (rewrite Hfs1, lookup_insert_ne by exact Hne; exact Hp).
  unfold resize_image_to_target_size in Hr. rewrite Hp, Hin, Hd, B in Hr.
  injection Hr as <-.
  rewrite (ending_frame _ _ _ _ _ _ _ (process_ending _ _ _ _ _ _ Himg) Hne Ht).
  exact Hcopy.
Qed.

Lemma ending_close_enough (p : string) (lo hi q0 : Z) (fs : filesystem) (r : run) :
  ending p lo hi q0 fs r -> run_verdict r = CloseEnough ->
  exists final st,
    run_fs r !! p = Some final /\
    (size_kb final < inject_Z lo)%Q /\ (size_kb final <= inject_Z hi)%Q /\
    In st (run_trace r) /\ 95 <= quality st.
Proof.
  intros [_ _ _ H _ | content img st0 lr Hp Himg Hst -> Htr Hexit] Hv;
    [contradiction|].
  set (lr := search_loop _ p lo hi img st0 fs) in *.
  apply initial_state_spec in Hst.
  destruct Hst as (_ & Hatt & _).
  destruct (lr_exit lr) eqn:E.
  - destruct Hexit as [Hv' _]. congruence.
  - destruct (search_loop_broke p lo hi img _ st0 fs E)
      as (encoded & Hfs & _ & Hout & Hle & Hq).
    fold lr in Hfs, Hq. rewrite (after_loop_temp _ _ _ _ Hfs) in Hexit.
    pose proof (within_max_close_enough _ _ (size_kb_nonneg encoded) Hle) as Hc.
    apply Qle_bool_iff in Hc. rewrite Hc in Hexit. injection Hexit as _ ->.
    exists encoded, (lr_state lr). rewrite lookup_insert_eq.
    split; [reflexivity|].
    split; [eapply below_min_of_not_in_range; eassumption|].
    split; [exact Hle|]. split; [|exact Hq].
    rewrite Htr. apply search_loop_broke_last. exact E.
  - exfalso.
    assert (Hlt : attempts st0 < max_attempts) by (rewrite Hatt; reflexivity).
    pose proof (search_loop_exhausted p lo hi img (Z.to_nat max_attempts) st0 fs)
      as Hx.
    fold lr in Hx. rewrite after_loop_no_temp in Hexit by (apply Hx; auto).
    injection Hexit as Hv' _. congruence.
  - destruct Hexit as [Hv' _]. congruence.
  - destruct Hexit as [Hv' _]. congruence.
Qed.

(** X7.  The verdict "close enough" is only ever given to an encoding that
    is at most [max] KB and below [min], made at a quality of 95 or more:
    an encoding between [max] and [max * 1.2] is never accepted. *)
Theorem close_enough_is_under_target (image_path : string)
    (target_min_kb target_max_kb quality_start : Z)
    (backup_to : option string) (fs : filesystem) (r : run) :
  resize_image_to_target_size image_path target_min_kb target_max_kb
    quality_start backup_to fs = Some r ->
  run_verdict r = CloseEnough ->
  exists final st,
    run_fs r !! image_path = Some final /\
    (size_kb final < inject_Z target_min_kb)%Q /\
    (size_kb final <= inject_Z target_max_kb)%Q /\
    In st (run_trace r) /\ 95 <= quality st.
Proof.
  intros Hr Hv.
  destruct (resize_ending _ _ _ _ _ _ _ Hr) as [E | (d & bf & fs1 & _ & _ & E)];
    exact (ending_close_enough _ _ _ _ _ _ E Hv).
Qed.

Lemma ending_trace (p : string) (lo hi q0 : Z) (fs : filesystem) (r : run)
    (P : search_state -> Prop) :
  ending p lo hi q0 fs r ->
  (forall content img st0,
     fs !! p = Some content -> image_open content = Some img ->
     initial_state hi q0 (size_kb content) img = Some st0 ->
     Forall P (lr_trace (search_loop (Z.to_nat max_attempts) p lo hi img st0 fs))) ->
  Forall P (run_trace r).
Proof.
  intros [_ -> _ _ _ | content img st0 lr Hp Himg Hst -> -> _] H;
    [constructor | eauto].
Qed.

(** X8.  Called with the starting quality 85, as [main] does, the function
    only ever encodes at a quality that is a multiple of 5 between 60 and
    95. *)
Theorem default_quality_range (image_path : string)
    (target_min_kb target_max_kb : Z)
    (backup_to : option string) (fs : filesystem) (r : run) :
  resize_image_to_target_size image_path target_min_kb target_max_kb
    85 backup_to fs = Some r ->
  Forall (fun st => 60 <= quality st <= 95 /\ (5 | quality st)) (run_trace r).
Proof.
  intros Hr.
  assert (H : forall fs', ending image_path target_min_kb target_max_kb 85 fs' r ->
            Forall (fun st => 60 <= quality st <= 95 /\ (5 | quality st))
              (run_trace r)).
  { intros fs' E. apply (ending_trace _ _ _ _ _ _ _ E).
    intros content img st0 _ _ Hst.
    apply initial_state_spec in Hst.
    destruct Hst as (Hq & _).
    apply search_loop_quality; rewrite Hq; [lia | exists 17; lia]. }
  destruct (resize_ending _ _ _ _ _ _ _ Hr) as [E | (d & bf & fs1 & _ & _ & E)];
    eapply H; exact E.
Qed.

(** X16.  Once it has started, the loop never enlarges the image: every
    iteration runs with a width and a height that are at most those of
    the first iteration. *)
Theorem loop_never_enlarges (image_path : string)
    (target_min_kb target_max_kb quality_start : Z)
    (backup_to : option string) (fs : filesystem) (r : run)
    (st0 : search_state) (rest : list search_state) :
  resize_image_to_target_size image_path target_min_kb target_max_kb
    quality_start backup_to fs = Some r ->
  run_trace r = st0 :: rest ->
  0 <= width st0 /\ 0 <= height st0 /\
  Forall (fun st => width st <= width st0 /\ height st <= height st0)
    (run_trace r).
Proof.
  intros Hr Htr.
  assert (H : forall fs', ending image_path target_min_kb target_max_kb
                            quality_start fs' r ->
            0 <= width st0 /\ 0 <= height st0 /\
            Forall (fun st => width st <= width st0 /\ height st <= height st0)
              (run_trace r)).
  { intros fs' [_ Hnil _ _ _ | content img st1 lr Hp Himg Hst -> Hlr _];
      [rewrite Hnil in Htr; discriminate|].
    pose proof (initial_state_spec _ _ _ _ _ Hst) as (_ & Hatt & Hw & Hh & _).
    destruct (search_loop_first image_path target_min_kb target_max_kb img 14
                st1 fs') as [rest' Hfirst]; [rewrite Hatt; reflexivity|].
    change (S 14) with (Z.to_nat max_attempts) in Hfirst.
    assert (st1 = st0) by congruence. subst st1.
    split; [exact Hw|]. split; [exact Hh|].
    rewrite Hlr. apply search_loop_dims; assumption. }
  destruct (resize_ending _ _ _ _ _ _ _ Hr) as [E | (d & bf & fs1 & _ & _ & E)];
    eapply H; exact E.
Qed.

End Effects2.

(** ** [main], lines 158-199 *)

Section Batches.
Context `{codec : Codec}.

Lemma dry_run_report_spec (jpg_files : list string) (a : arguments) (fs : filesystem) :
  (forall f, In f jpg_files -> is_Some (fs !! f)) ->
  exists report,
    dry_run_report jpg_files a fs = Some report /\
    map (fun line => fst (fst line)) report = jpg_files /\
    Forall (fun line =>
              exists content,
                fs !! fst (fst line) = Some content /\
                snd (fst line) = size_kb content /\
                snd line = in_target_range (min_size a) (max_size a) (size_kb content))
           report.
Proof.
  induction jpg_files as [|f rest IH]; intros Hex.
  - exists []. simpl. auto.
  - destruct (Hex f) as [content Hf]; [left; reflexivity|].
    destruct IH as (report & Hrep & Hmap & Hall);
      [intros g Hg; apply Hex; right; exact Hg|].
    simpl. rewrite Hf, Hrep. eexists. split; [reflexivity|]. simpl.
    split; [rewrite Hmap; reflexivity|].
    constructor; [|exact Hall]. exists content. simpl. auto.
Qed.

(** X10.  A dry run over files that exist reports every file once, in
    order, with its size in KB and the status "OK" exactly when the size is
    within the target range; a file reported "OK" is one that a real call
    returns at once, untouched. *)
Theorem dry_run_reports_every_file (a : arguments) (jpg_files : list string)
    (fs : filesystem) :
  dry_run a = true ->
  jpg_files <> [] ->
  (forall f, In f jpg_files -> is_Some (fs !! f)) ->
  exists report,
    main a (Some jpg_files) fs = (DryRunReport report, fs) /\
    map (fun line => fst (fst line)) report = jpg_files /\
    Forall (fun line =>
              exists content,
                fs !! fst (fst line) = Some content /\
                snd (fst line) = size_kb content /\
                snd line = in_target_range (min_size a) (max_size a) (size_kb content) /\
                (snd line = true ->
                 forall quality_start backup_to,
                   resize_image_to_target_size (fst (fst line)) (min_size a)
                     (max_size a) quality_start backup_to fs
                   = Some (Run AlreadyInRange fs [])))
           report.
Proof.
  intros Hdry Hne Hex.
  destruct (dry_run_report_spec jpg_files a fs Hex) as (report & Hrep & Hmap & Hall).
  exists report. split.
  - unfold main. rewrite Hdry, Hrep.
    destruct jpg_files; [contradiction | reflexivity].
  - split; [exact Hmap|].
    eapply Forall_impl; [exact Hall|]. simpl.
    intros line (content & Hf & Hs & Hok). exists content.
    split; [exact Hf|]. split; [exact Hs|]. split; [exact Hok|].
    intros Htrue q0 b. unfold resize_image_to_target_size.
    rewrite Hf, <- Hok, Htrue. reflexivity.
Qed.

(** X11.  Over existing files named [*.jpg] or [*.JPG], a run of [main]
    without [--dry-run] never stops early.  Every file gets its call of
    [resize_image_to_target_size], in order, with the targets of the
    command line, the starting quality 85 and the backup directory when
    [--backup] is given, each call on the file system the call before it
    left.  [main] returns the summary of these calls: the log has the
    verdict of each call, the total is the number of files and the success
    count is the number of calls that returned [True]; the file system is
    the one the last call left, and every file is still there. *)
Theorem main_summary (a : arguments) (jpg_files : list string) (fs : filesystem) :
  dry_run a = false ->
  jpg_files <> [] ->
  Forall jpg_name jpg_files ->
  (forall f, In f jpg_files -> is_Some (fs !! f)) ->
  exists succeeded log fs',
    processed_in_turn a (if backup a then Some (backup_dir a) else None)
      jpg_files fs log fs' /\
    main a (Some jpg_files) fs = (Summary succeeded (length jpg_files) log, fs') /\
    map fst log = jpg_files /\
    succeeded = succeeded_in log /\
    (succeeded <= length jpg_files)%nat /\
    forall f, In f jpg_files -> is_Some (fs' !! f).
Proof.
  intros Hdry Hne Hjpg Hex.
  set (backup_to := if backup a then Some (backup_dir a) else None).
  destruct (process_files_spec jpg_files a backup_to 0 fs Hjpg Hex)
    as (Hc & Hl & Hs & Hk).
  pose proof (process_files_turns jpg_files a backup_to 0 fs Hc) as Hturn.
  set (b := process_files jpg_files a backup_to 0 fs) in *.
  exists (success_count b), (batch_log b), (batch_fs b).
  split; [exact Hturn|].
  split.
  { unfold main. rewrite Hdry. fold backup_to. fold b. rewrite Hc.
    destruct jpg_files; [contradiction | reflexivity]. }
  split; [exact Hl|]. split; [rewrite Hs; reflexivity|]. split.
  - rewrite Hs. simpl. unfold succeeded_in. rewrite <- Hl, length_map.
    apply List.filter_length_le.
  - intros f Hf. apply Hk; [|apply Hex; exact Hf].
    rewrite Forall_forall in Hjpg. apply Hjpg. apply list_elem_of_In. exact Hf.
Qed.

(** X12.  A listed file that no longer exists when its turn comes is not a
    per-file failure: the size is read outside the [try], the exception
    leaves [main] and no summary is printed.  The files before it have been
    processed, the files after it are not. *)
Theorem missing_file_stops_batch (a : arguments) (before after : list string)
    (f : string) (fs : filesystem) :
  dry_run a = false ->
  let backup_to := if backup a then Some (backup_dir a) else None in
  let reached := process_files before a backup_to 0 fs in
  batch_crashed reached = false ->
  batch_fs reached !! f = None ->
  main a (Some (before ++ f :: after)) fs = (Crashed, batch_fs reached).
Proof.
  intros Hdry backup_to reached Hc Hf.
  unfold main. rewrite Hdry. fold backup_to.
  rewrite process_files_app by exact Hc. fold reached. simpl.
  unfold resize_image_to_target_size. rewrite Hf. simpl.
  destruct (before ++ f :: after) eqn:E; [destruct before; discriminate|].
  reflexivity.
Qed.

Lemma process_files_in_range (jpg_files : list string) (a : arguments)
    (backup_to : option string) (count : nat) (fs : filesystem) :
  (forall f, In f jpg_files ->
     exists content, fs !! f = Some content /\
       in_target_range (min_size a) (max_size a) (size_kb content) = true) ->
  process_files jpg_files a backup_to count fs =
    Batch (count + length jpg_files) (map (fun f => (f, AlreadyInRange)) jpg_files)
          fs false.
Proof.
  revert count. induction jpg_files as [|f rest IH]; intros count Hin.
  - simpl. f_equal. lia.
  - destruct (Hin f) as (content & Hf & Hr); [left; reflexivity|].
    simpl. unfold resize_image_to_target_size. rewrite Hf, Hr. simpl.
    rewrite IH by (intros g Hg; apply Hin; right; exact Hg). simpl.
    f_equal. lia.
Qed.

(** X13.  Running [main] on a directory whose files are all within the
    target range changes nothing: every file gets the verdict "already in
    range", all are counted as successes and the file system is the one
    [main] was given. *)
Theorem conforming_directory_untouched (a : arguments) (jpg_files : list string)
    (fs : filesystem) :
  dry_run a = false ->
  jpg_files <> [] ->
  (forall f, In f jpg_files ->
     exists content, fs !! f = Some content /\
       in_target_range (min_size a) (max_size a) (size_kb content) = true) ->
  main a (Some jpg_files) fs =
    (Summary (length jpg_files) (length jpg_files)
       (map (fun f => (f, AlreadyInRange)) jpg_files), fs).
Proof.
  intros Hdry Hne Hin. unfold main. rewrite Hdry.
  rewrite process_files_in_range by exact Hin. simpl.
  destruct jpg_files; [contradiction | reflexivity].
Qed.

End Batches.

(** ** The float expression of the reduction, lines 116-117 *)

Lemma all_from_spec (n : nat) (z : Z) (p : Z -> bool) :
  Binary64.all_from n z p = true ->
  forall d, z <= d < z + Z.of_nat n -> p d = true.
Proof.
  revert z. induction n as [|n IH]; intros z H d Hd; [lia|].
  simpl in H. apply andb_true_iff in H. destruct H as [Hz Hrest].
  destruct (Z.eq_dec d z) as [-> | Hne]; [exact Hz|].
  apply (IH (z + 1) Hrest). lia.
Qed.

Lemma shrink_agrees_all : Binary64.all_from (Z.to_nat 65536) 0 Binary64.shrink_agrees = true.
Proof. vm_compute. reflexivity. Qed.

(** X14.  For every dimension a JPEG image can have (up to 65535), the
    binary64 computation [int(width * 0.9)] of the source gives exactly the
    integer part of [width * 9 / 10]. *)
Theorem float_shrink_exact (d : Z) :
  0 <= d < 65536 ->
  Binary64.float_shrink d = Some (d * 9 / 10).
Proof.
  intros Hd.
  pose proof (all_from_spec _ _ _ shrink_agrees_all d) as H.
  rewrite Z2Nat.id in H by lia. specialize (H ltac:(lia)).
  unfold Binary64.shrink_agrees in H.
  destruct (Binary64.float_shrink d) as [z|]; [|discriminate].
  apply Z.eqb_eq in H. rewrite H, shrink_quot.
  rewrite Z.quot_div_nonneg by lia. reflexivity.
Qed.

(** ** Instances of the further properties *)

Lemma second_call_is_noop_witness :
  exists r,
    resize_image_to_target_size (codec := Toy.toy_codec)
      "source/a.jpg" 1 2 85 None large_fs = Some r /\
    resize_image_to_target_size (codec := Toy.toy_codec)
      "source/a.jpg" 1 2 85 None (run_fs r) = Some (Run AlreadyInRange (run_fs r) []).
Proof.
  destruct (resize_image_to_target_size (codec := Toy.toy_codec)
              "source/a.jpg" 1 2 85 None large_fs) as [r|] eqn:E;
    [|vm_compute in E; discriminate].
  assert (Hv : run_verdict r = Resized).
  { revert E. vm_compute. intros [= <-]. reflexivity. }
  exists r. split; [reflexivity|].
  exact (second_call_is_noop (codec := Toy.toy_codec)
           "source/a.jpg" 1 2 85 85 None None large_fs r E Hv).
Defined.

Lemma no_temp_file_left_witness :
  exists r,
    resize_image_to_target_size (codec := Toy.toy_codec)
      "source/a.jpg" 1 2 85 None slow_fs = Some r /\
    run_fs r !! temp_path_of "source/a.jpg" = None.
Proof.
  destruct (resize_image_to_target_size (codec := Toy.toy_codec)
              "source/a.jpg" 1 2 85 None slow_fs) as [r|] eqn:E;
    [|vm_compute in E; discriminate].
  assert (Hv : run_verdict r = CouldNotAchieve).
  { revert E. vm_compute. intros [= <-]. reflexivity. }
  exists r. split; [reflexivity|].
  apply (no_temp_file_left (codec := Toy.toy_codec)
           "source/a.jpg" 1 2 85 None slow_fs r E). auto.
Defined.

Lemma other_files_untouched_witness :
  exists r,
    resize_image_to_target_size (codec := Toy.toy_codec)
      "source/a.jpg" 1 2 85 (Some "bk/"%string) batch_files = Some r /\
    run_fs r !! "source/c.jpg"%string = batch_files !! "source/c.jpg"%string /\
    run_fs r !! "bk/a.jpg"%string = Some padded_file /\
    batch_files !! "bk/a.jpg"%string = None.
Proof.
  destruct (resize_image_to_target_size (codec := Toy.toy_codec)
              "source/a.jpg" 1 2 85 (Some "bk/"%string) batch_files)
    as [r|] eqn:E; [|vm_compute in E; discriminate].
  assert (Hcopy : run_fs r !! "bk/a.jpg"%string = Some padded_file)
    by (revert E; vm_compute; intros [= <-]; reflexivity).
  exists r. split; [reflexivity|]. split; [|split; [exact Hcopy | reflexivity]].
  apply (other_files_untouched (codec := Toy.toy_codec)
           "source/a.jpg" "source/c.jpg" 1 2 85 (Some "bk/"%string)
           batch_files r E).
  - discriminate.
  - discriminate.
  - intros d rel Hd Hrel. injection Hd as <-. injection Hrel as <-.
    discriminate.
Defined.

Lemma backup_holds_original_witness :
  exists r,
    resize_image_to_target_size (codec := Toy.toy_codec)
      "source/a.jpg" 1 2 85 (Some "backup_originals"%string) large_fs = Some r /\
    run_verdict r = Resized /\
    run_fs r !! "backup_originals/a.jpg"%string = Some large_file.
Proof.
  destruct (resize_image_to_target_size (codec := Toy.toy_codec)
              "source/a.jpg" 1 2 85 (Some "backup_originals"%string) large_fs)
    as [r|] eqn:E; [|vm_compute in E; discriminate].
  assert (Hv : run_verdict r = Resized).
  { revert E. vm_compute. intros [= <-]. reflexivity. }
  exists r. split; [reflexivity|]. split; [exact Hv|].
  apply (backup_holds_original (codec := Toy.toy_codec)
           "source/a.jpg" "backup_originals" "backup_originals/a.jpg" 1 2 85
           (Some "backup_originals"%string) large_fs
           (<["backup_originals/a.jpg"%string := large_file]> large_fs)
           large_file r).
  - exists "source/a"%string. left. reflexivity.
  - vm_compute. reflexivity.
  - vm_compute. reflexivity.
  - reflexivity.
  - vm_compute. reflexivity.
  - exact E.
Defined.

Lemma close_enough_is_under_target_witness :
  exists r final,
    resize_image_to_target_size (codec := Toy.toy_codec)
      "source/a.jpg" 1 2 85 None padded_fs = Some r /\
    run_fs r !! "source/a.jpg"%string = Some final /\
    (size_kb final <= inject_Z 2)%Q.
Proof.
  destruct (resize_image_to_target_size (codec := Toy.toy_codec)
              "source/a.jpg" 1 2 85 None padded_fs) as [r|] eqn:E;
    [|vm_compute in E; discriminate].
  assert (Hv : run_verdict r = CloseEnough).
  { revert E. vm_compute. intros [= <-]. reflexivity. }
  destruct (close_enough_is_under_target (codec := Toy.toy_codec)
              "source/a.jpg" 1 2 85 None padded_fs r E Hv)
    as (final & st & Hfs & _ & Hle & _).
  exists r, final. split; [reflexivity|]. split; [exact Hfs | exact Hle].
Defined.

Lemma default_quality_range_witness :
  exists r,
    resize_image_to_target_size (codec := Toy.toy_codec)
      "source/a.jpg" 1 2 85 None slow_fs = Some r /\
    Forall (fun st => 60 <= quality st <= 95 /\ (5 | quality st)) (run_trace r).
Proof.
  destruct (resize_image_to_target_size (codec := Toy.toy_codec)
              "source/a.jpg" 1 2 85 None slow_fs) as [r|] eqn:E;
    [|vm_compute in E; discriminate].
  exists r. split; [reflexivity|].
  exact (default_quality_range (codec := Toy.toy_codec)
           "source/a.jpg" 1 2 None slow_fs r E).
Defined.

Lemma loop_never_enlarges_witness :
  exists r rest,
    resize_image_to_target_size (codec := Toy.toy_codec)
      "source/a.jpg" 1 2 85 None slow_fs = Some r /\
    run_trace r = SearchState 100 100 85 0 :: rest /\
    Forall (fun st => width st <= 100 /\ height st <= 100) (run_trace r) /\
    In (SearchState 72 72 60 14) (run_trace r).
Proof.
  destruct (resize_image_to_target_size (codec := Toy.toy_codec)
              "source/a.jpg" 1 2 85 None slow_fs) as [r|] eqn:E;
    [|vm_compute in E; discriminate].
  assert (Htr : exists rest, run_trace r = SearchState 100 100 85 0 :: rest).
  { revert E. vm_compute. intros [= <-]. eexists. reflexivity. }
  destruct Htr as (rest & Htr).
  assert (Hlast : In (SearchState 72 72 60 14) (run_trace r)).
  { revert E. vm_compute. intros [= <-]. simpl. tauto. }
  exists r, rest. split; [reflexivity|]. split; [exact Htr|].
  split; [|exact Hlast].
  exact (proj2 (proj2 (loop_never_enlarges (codec := Toy.toy_codec)
           "source/a.jpg" 1 2 85 None slow_fs r _ rest E Htr))).
Defined.

Lemma dry_run_reports_every_file_witness :
  exists report,
    main (codec := Toy.toy_codec) (small_targets true)
      (Some ["source/a.jpg"%string; "source/c.jpg"%string]) batch_files
    = (DryRunReport report, batch_files) /\
    map (fun line => fst (fst line)) report
    = ["source/a.jpg"%string; "source/c.jpg"%string].
Proof.
  destruct (dry_run_reports_every_file (codec := Toy.toy_codec) (small_targets true)
              ["source/a.jpg"%string; "source/c.jpg"%string] batch_files)
    as (report & Hmain & Hmap & _).
  - reflexivity.
  - discriminate.
  - intros f [<- | [<- | []]]; vm_compute; eauto.
  - exists report. split; [exact Hmain | exact Hmap].
Defined.

Lemma main_summary_witness :
  exists fs',
    main (codec := Toy.toy_codec) (small_targets false)
      (Some ["source/a.jpg"%string; "source/c.jpg"%string]) batch_files
    = (Summary 2 2 [("source/a.jpg"%string, CloseEnough);
                    ("source/c.jpg"%string, AlreadyInRange)], fs') /\
    fs' !! "source/c.jpg"%string = Some fitting_file.
Proof.
  destruct (main_summary (codec := Toy.toy_codec) (small_targets false)
              ["source/a.jpg"%string; "source/c.jpg"%string] batch_files)
    as (succeeded & log & fs' & Hturn & Hmain & _ & Hs & _).
  - reflexivity.
  - discriminate.
  - repeat constructor.
    + exists "source/a"%string. left. reflexivity.
    + exists "source/c"%string. left. reflexivity.
  - intros f [<- | [<- | []]]; vm_compute; eauto.
  - inversion Hturn as [|? ? ? ra ? fsa Ha Hrest]; subst.
    inversion Hrest as [|? ? ? rc ? fsc Hc Hnil]; subst.
    inversion Hnil; subst.
    assert (Hva : run_verdict ra = CloseEnough)
      by (revert Ha; vm_compute; intros [= <-]; reflexivity).
    assert (Hfc : run_fs ra !! "source/c.jpg"%string = Some fitting_file)
      by (revert Ha; vm_compute; intros [= <-]; reflexivity).
    assert (Hrc : rc = Run AlreadyInRange (run_fs ra) []).
    { revert Hc. unfold resize_image_to_target_size. rewrite Hfc.
      intros [= <-]. reflexivity. }
    exists (run_fs rc). rewrite Hmain, Hva, Hrc. split; [reflexivity|].
    exact Hfc.
Defined.

Lemma missing_file_stops_batch_witness :
  main (codec := Toy.toy_codec) (small_targets false)
    (Some (["source/c.jpg"%string] ++ "source/gone.jpg"%string
             :: ["source/a.jpg"%string])) batch_files
  = (Crashed, batch_files).
Proof.
  assert (Hfs : batch_fs (process_files (codec := Toy.toy_codec)
                  ["source/c.jpg"%string] (small_targets false) None 0 batch_files)
                = batch_files) by (vm_compute; reflexivity).
  rewrite <- Hfs at 2.
  apply (missing_file_stops_batch (codec := Toy.toy_codec) (small_targets false)
           ["source/c.jpg"%string] ["source/a.jpg"%string] "source/gone.jpg"
           batch_files).
  - reflexivity.
  - vm_compute. reflexivity.
  - vm_compute. reflexivity.
Defined.

Lemma conforming_directory_untouched_witness :
  main (codec := Toy.toy_codec) (small_targets false)
    (Some ["source/a.jpg"%string]) fitting_fs
  = (Summary 1 1 [("source/a.jpg"%string, AlreadyInRange)], fitting_fs).
Proof.
  apply (conforming_directory_untouched (codec := Toy.toy_codec)
           (small_targets false) ["source/a.jpg"%string] fitting_fs).
  - reflexivity.
  - discriminate.
  - intros f [<- | []]. exists fitting_file. split; vm_compute; reflexivity.
Defined.

Lemma float_shrink_exact_witness : Binary64.float_shrink 1 = Some 0.
Proof. apply (float_shrink_exact 1). lia. Defined.
